(** * Ascylla tic-tac-toe: win detection and game-history aggregation

    A shallow embedding of the two TypeScript sources of the repository,
    [src/app/(tabs)/index.tsx] (module [IndexTsx] below) and the second
    screen file (module [Part000] below, the one with the grouped history
    view), followed by the properties of the specification that were
    checked against them.

    Conventions of the embedding.
    - A JavaScript string is the list of its UTF-16 code units ([jsstring]);
      [String.prototype.trim] and [String.prototype.split] are written out
      on that representation.
    - [null] / [undefined] are [None]; a cell of the board is
      [option jsstring], an array read [b[i]] is [nth_error].
    - A plain object used as a dictionary is the list of its own
      properties in creation order ([JSObject]); [Object.entries] lists
      array-index keys first, in ascending order, then the others in
      creation order.
    - A [TypeError] is [None] in the [option] monad.
    - React state is an explicit record; the outcome of the awaited
      [AsyncStorage] call is a boolean argument. *)

From Stdlib Require Import Ascii String.
From Stdlib Require Import List Bool Arith NArith ZArith Lia Permutation.
From Stdlib Require DecimalNat.
Import ListNotations.

Set Implicit Arguments.

(** ** JavaScript strings *)

Definition jsstring := list N.

(** [js] turns a literal of the source into its code units (the literals
    of the two files are ASCII). *)
Definition js (s : string) : jsstring :=
  map N_of_ascii (list_ascii_of_string s).

Definition jsstring_eq_dec : forall s t : jsstring, {s = t} + {s <> t} :=
  list_eq_dec N.eq_dec.

Definition str_eqb (s t : jsstring) : bool :=
  if jsstring_eq_dec s t then true else false.

(** [!s] for a string: only the empty string is falsy. *)
Definition str_truthy (s : jsstring) : bool :=
  match s with [] => false | _ :: _ => true end.

(** ECMAScript WhiteSpace and LineTerminator code points, the ones
    [trim] strips.  All of them lie in the Basic Multilingual Plane, so
    testing code units is exact. *)
Definition isWhiteSpace (c : N) : bool :=
  ((9 <=? c) && (c <=? 13) || (c =? 32) || (c =? 160) || (c =? 5760)
   || (8192 <=? c) && (c <=? 8202) || (c =? 8232) || (c =? 8233)
   || (c =? 8239) || (c =? 8287) || (c =? 12288) || (c =? 65279))%N.

Fixpoint trimStart (s : jsstring) : jsstring :=
  match s with
  | [] => []
  | c :: s' => if isWhiteSpace c then trimStart s' else s
  end.

Definition trimEnd (s : jsstring) : jsstring := rev (trimStart (rev s)).

Definition trim (s : jsstring) : jsstring := trimEnd (trimStart s).

(** [s.startsWith(p)] *)
Fixpoint startsWith (p s : jsstring) : bool :=
  match p, s with
  | [], _ => true
  | _ :: _, [] => false
  | a :: p', b :: s' => (a =? b)%N && startsWith p' s'
  end.

(** [s.split(sep)] for a non-empty separator: the pieces between the
    leftmost non-overlapping occurrences of [sep].  [skip] counts the
    code units of a matched separator still to be passed over, [cur] is
    the piece being read, reversed. *)
Fixpoint split_go (sep : jsstring) (skip : nat) (cur s : jsstring)
  : list jsstring :=
  match s with
  | [] => [rev cur]
  | c :: s' =>
      match skip with
      | S k => split_go sep k cur s'
      | 0 =>
          if startsWith sep s
          then rev cur :: split_go sep (length sep - 1) [] s'
          else split_go sep 0 (c :: cur) s'
      end
  end.

Definition split (sep s : jsstring) : list jsstring := split_go sep 0 [] s.

(** Decimal rendering of a non-negative integer, as in a template
    literal. *)
Fixpoint uint_codes (d : Decimal.uint) : jsstring :=
  match d with
  | Decimal.Nil => []
  | Decimal.D0 d => 48%N :: uint_codes d
  | Decimal.D1 d => 49%N :: uint_codes d
  | Decimal.D2 d => 50%N :: uint_codes d
  | Decimal.D3 d => 51%N :: uint_codes d
  | Decimal.D4 d => 52%N :: uint_codes d
  | Decimal.D5 d => 53%N :: uint_codes d
  | Decimal.D6 d => 54%N :: uint_codes d
  | Decimal.D7 d => 55%N :: uint_codes d
  | Decimal.D8 d => 56%N :: uint_codes d
  | Decimal.D9 d => 57%N :: uint_codes d
  end.

Definition Number_toString (n : nat) : jsstring := uint_codes (Nat.to_uint n).

(** ** The board and the win detector

    [calculateWinner] has the same text in both source files. *)

Definition cell := option jsstring.
Definition squares := list cell.

Definition cell_eq_dec : forall v w : option cell, {v = w} + {v <> w}.
Proof. repeat decide equality. Defined.

(** [v === w] on what an array read can give: [undefined], [null] or a
    string. *)
Definition strict_eq (v w : option cell) : bool :=
  if cell_eq_dec v w then true else false.

Definition lines : list (nat * nat * nat) :=
  [ (0, 1, 2); (3, 4, 5); (6, 7, 8);
    (0, 3, 6); (1, 4, 7); (2, 5, 8);
    (0, 4, 8); (2, 4, 6) ].

(** The body of the [for ... of lines] loop: [b[a]] must be truthy (a
    non-empty string) and strictly equal to [b[b1]] and [b[c]]. *)
Fixpoint scan_lines (b : squares) (ls : list (nat * nat * nat))
  : option (jsstring * list nat) :=
  match ls with
  | [] => None
  | (a, b1, c) :: rest =>
      match nth_error b a with
      | Some (Some s) =>
          if str_truthy s
             && strict_eq (nth_error b a) (nth_error b b1)
             && strict_eq (nth_error b a) (nth_error b c)
          then Some (s, [a; b1; c])
          else scan_lines b rest
      | _ => scan_lines b rest
      end
  end.

Definition calculateWinner (b : squares) : option (jsstring * list nat) :=
  scan_lines b lines.


(** ** Plain objects used as dictionaries *)

(** Own properties in creation order; keys are unique. *)
Definition JSObject (V : Type) := list (jsstring * V).

Fixpoint obj_get {V} (k : jsstring) (o : JSObject V) : option V :=
  match o with
  | [] => None
  | (k', v) :: o' => if str_eqb k k' then Some v else obj_get k o'
  end.

(** [o[k] = v]: an existing property keeps its place, a new one goes
    last. *)
Fixpoint obj_set {V} (k : jsstring) (v : V) (o : JSObject V) : JSObject V :=
  match o with
  | [] => [(k, v)]
  | (k', v') :: o' =>
      if str_eqb k k' then (k', v) :: o' else (k', v') :: obj_set k v o'
  end.

Definition obj_keys {V} (o : JSObject V) : list jsstring := map fst o.
Definition obj_values {V} (o : JSObject V) : list V := map snd o.

(** Names that every plain object inherits from [Object.prototype]: a
    read [o[k]] of one of them that is not an own property gives a
    function (or, for [__proto__], the prototype), never [undefined]. *)
Definition Object_prototype_names : list jsstring :=
  [ js "constructor"; js "hasOwnProperty"; js "isPrototypeOf";
    js "propertyIsEnumerable"; js "toLocaleString"; js "toString";
    js "valueOf"; js "__proto__"; js "__defineGetter__";
    js "__defineSetter__"; js "__lookupGetter__"; js "__lookupSetter__" ].

Definition inherited (k : jsstring) : bool :=
  existsb (str_eqb k) Object_prototype_names.

(** What a read [o[k]] finds. *)
Inductive property (V : Type) : Type :=
| Own (v : V)
| Inherited
| Undefined.

Arguments Inherited {V}.
Arguments Undefined {V}.

Definition obj_read {V} (k : jsstring) (o : JSObject V) : property V :=
  match obj_get k o with
  | Some v => Own v
  | None => if inherited k then Inherited else Undefined
  end.

(** A key is an array index when it is the canonical decimal form of an
    integer below [2^32 - 1]. *)
Definition digit_val (c : N) : option N :=
  if ((48 <=? c) && (c <=? 57))%N then Some (c - 48)%N else None.

Fixpoint digits_val (s : jsstring) (acc : N) : option N :=
  match s with
  | [] => Some acc
  | c :: s' =>
      match digit_val c with
      | Some d => digits_val s' (10 * acc + d)%N
      | None => None
      end
  end.

Definition arrayIndex (k : jsstring) : option N :=
  match k with
  | [] => None
  | c :: rest =>
      if (c =? 48)%N && str_truthy rest then None
      else match digits_val k 0 with
           | Some n => if (n <? 4294967295)%N then Some n else None
           | None => None
           end
  end.

Fixpoint insert_by_index {V} (e : N * (jsstring * V))
  (l : list (N * (jsstring * V))) : list (N * (jsstring * V)) :=
  match l with
  | [] => [e]
  | e' :: l' =>
      if (fst e <=? fst e')%N then e :: l else e' :: insert_by_index e l'
  end.

Definition index_props {V} (o : JSObject V) : list (N * (jsstring * V)) :=
  flat_map (fun kv => match arrayIndex (fst kv) with
                      | Some n => [(n, kv)]
                      | None => []
                      end) o.

Definition is_named {V} (kv : jsstring * V) : bool :=
  match arrayIndex (fst kv) with Some _ => false | None => true end.

(** [Object.entries(o)]: array-index keys in ascending order, then the
    other keys in creation order. *)
Definition Object_entries {V} (o : JSObject V) : list (jsstring * V) :=
  map snd (fold_right insert_by_index [] (index_props o))
  ++ filter is_named o.

(** [mapM] in the option monad: an array [map] whose callback may throw. *)
Fixpoint map_opt {A B} (f : A -> option B) (l : list A) : option (list B) :=
  match l with
  | [] => Some []
  | a :: l' =>
      match f a with
      | None => None
      | Some b =>
          match map_opt f l' with
          | None => None
          | Some bs => Some (b :: bs)
          end
      end
  end.

(** ** Game records *)

Module Players.
Record t : Type := make { X : jsstring; O : jsstring }.
End Players.

Module Game.
Record t : Type := make {
  board : squares;
  result : jsstring;
  players : Players.t;
  timestamp : Z
}.
End Game.

(** [{ ...game, players: { X, O } }] *)
Definition with_players (game : Game.t) (X O : jsstring) : Game.t :=
  {| Game.board := Game.board game;
     Game.result := Game.result game;
     Game.players := Players.make X O;
     Game.timestamp := Game.timestamp game |}.

(** [Alert.alert(title, message)] *)
Definition Alert : Type := jsstring * jsstring.

(** The item stored under [STORAGE_KEY], read back with [JSON.parse]:
    [None] when the key is absent. *)
Definition Storage : Type := option (list Game.t).

(** [data ? JSON.parse(data) : []] *)
Definition parse_games (data : Storage) : list Game.t :=
  match data with Some gs => gs | None => [] end.

(** ** The game screen

    [handlePress] and the Restart button have the same text in both
    source files; what they close over (the two names and [saveGame]) is
    a parameter here, and each file's module instantiates it below. *)

Module GameScreen.

(** The four [useState] cells of [GameScreen]. *)
Record State : Type := mkState {
  board : squares;
  xIsNext : bool;
  winner : option jsstring;
  winningCombo : option (list nat)
}.

(** The initial values, which are also what the Restart button sets:
    [Array(9).fill(null)], nobody has won, and [xFirst] tells whether X
    moves first. *)
Definition start (xFirst : bool) : State :=
  mkState (repeat None 9) xFirst None None.

(** Truthiness of an array read [board[index]]. *)
Definition cell_truthy (v : option cell) : bool :=
  match v with
  | Some (Some s) => str_truthy s
  | _ => false
  end.

(** Truthiness of the [winner] state. *)
Definition winner_truthy (w : option jsstring) : bool :=
  match w with
  | Some s => str_truthy s
  | None => false
  end.

(** [newBoard[index] = v] at a position of the array.  [None] stands for
    a write past the end, which would leave holes that a list does not
    represent; the board component only calls [onPress] with the
    positions of [board.map]. *)
Fixpoint array_set (b : squares) (index : nat) (v : cell) : option squares :=
  match b, index with
  | [], _ => None
  | _ :: b', 0 => Some (v :: b')
  | c :: b', S i =>
      match array_set b' i v with
      | Some b'' => Some (c :: b'')
      | None => None
      end
  end.

(** [newBoard.every(Boolean)] on an array without holes. *)
Definition every_Boolean (b : squares) : bool :=
  forallb (fun c => cell_truthy (Some c)) b.

Definition alerts_of (a : option Alert) : list Alert :=
  match a with Some x => [x] | None => [] end.

Section HandlePress.

Variables playerX playerO : jsstring.

(** The closure [saveGame], given [Date.now()], the outcome of its
    storage calls and the stored item it reads. *)
Variable saveGame :
  Z -> bool -> Storage -> squares -> jsstring -> Storage * option Alert.

(** [handlePress(index)]: the new state, the stored item and the alerts
    shown, in order. *)
Definition handlePress (now : Z) (io_ok : bool) (st : State)
  (store : Storage) (index : nat) : option (State * Storage * list Alert) :=
  if cell_truthy (nth_error (board st) index) || winner_truthy (winner st)
  then Some (st, store, [])
  else
    match array_set (board st) index
            (Some (if xIsNext st then js "X" else js "O")) with
    | None => None
    | Some newBoard =>
        match calculateWinner newBoard with
        | Some (winSymbol, combo) =>
            let winName :=
              if str_eqb winSymbol (js "X") then playerX else playerO in
            let (store', failed) :=
              saveGame now io_ok store newBoard (winName ++ js " wins") in
            Some (mkState newBoard (negb (xIsNext st)) (Some winName)
                    (Some combo),
                  store',
                  (js "Game Over", winName ++ js " wins") :: alerts_of failed)
        | None =>
            if every_Boolean newBoard
            then
              let (store', failed) :=
                saveGame now io_ok store newBoard (js "Draw") in
              Some (mkState newBoard (negb (xIsNext st)) (Some (js "Draw"))
                      (winningCombo st),
                    store',
                    (js "Game Over", js "Draw") :: alerts_of failed)
            else
              Some (mkState newBoard (negb (xIsNext st)) (winner st)
                      (winningCombo st),
                    store, [])
        end
    end.

(** What the user does on the screen: press a cell (with the clock and
    the storage outcome of that moment) or press Restart. *)
Inductive event : Type :=
| Press (index : nat) (now : Z) (io_ok : bool)
| Restart.

Definition step (xFirst : bool) (cfg : State * Storage) (e : event)
  : option (State * Storage) :=
  match e with
  | Press index now io_ok =>
      match handlePress now io_ok (fst cfg) (snd cfg) index with
      | Some (st, store, _) => Some (st, store)
      | None => None
      end
  | Restart => Some (start xFirst, snd cfg)
  end.

Fixpoint run (xFirst : bool) (cfg : State * Storage) (es : list event)
  : option (State * Storage) :=
  match es with
  | [] => Some cfg
  | e :: es' =>
      match step xFirst cfg e with
      | Some cfg' => run xFirst cfg' es'
      | None => None
      end
  end.

End HandlePress.

End GameScreen.

(** ** [src/app/(tabs)/index.tsx] *)

Module IndexTsx.

Record PlayerRoute : Type := mkRoute {
  playerX : jsstring;
  playerO : jsstring
}.

(** [HomeScreen.startGame]: an alert, or the parameters handed to the
    game screen. *)
Definition startGame (playerX playerO : jsstring) : Alert + PlayerRoute :=
  if negb (str_truthy (trim playerX)) || negb (str_truthy (trim playerO))
  then inl (js "Error", js "Enter both names")
  else inr (mkRoute playerX playerO).

Definition calculateWinner := calculateWinner.

(** [GameScreen.saveGame]; [now] is [Date.now()], [io_ok] tells whether
    the two storage calls inside the [try] succeed.  The names come from
    the route parameters as [startGame] navigated with them (the default
    names of the destructuring stand in only for a route without
    parameters). *)
Definition saveGame (route : PlayerRoute) (now : Z) (io_ok : bool)
  (store : Storage) (boardState : squares) (result : jsstring)
  : Storage * option Alert :=
  let game :=
    {| Game.board := boardState;
       Game.result := result;
       Game.players := Players.make (playerX route) (playerO route);
       Game.timestamp := now |} in
  if io_ok
  then (Some (game :: parse_games store), None)
  else (store, Some (js "Error", js "Failed to save the game.")).

(** [const { playerX = 'Player X', playerO = 'Player O' } = route.params || {}] *)
Definition game_route (params : option PlayerRoute) : PlayerRoute :=
  match params with
  | Some r => r
  | None => mkRoute (js "Player X") (js "Player O")
  end.

(** [GameScreen.handlePress]; X always moves first in this file. *)
Definition handlePress (route : PlayerRoute) :=
  GameScreen.handlePress (playerX route) (playerO route) (saveGame route).

Definition run (route : PlayerRoute) :=
  GameScreen.run (playerX route) (playerO route) (saveGame route) true.

(** *** [HistoryScreen]: the list shown and the stored item. *)
Record History : Type := mkHistory {
  games : list Game.t;
  stored : Storage
}.

(** [loadGames] *)
Definition loadGames (io_ok : bool) (h : History) : History * option Alert :=
  if io_ok
  then ({| games := parse_games (stored h); stored := stored h |}, None)
  else (h, Some (js "Error", js "Failed to load game history.")).

(** [handleDeleteGame] *)
Definition handleDeleteGame (io_ok : bool) (h : History) (timestamp : Z)
  : History * option Alert :=
  let filtered :=
    filter (fun g => negb (Z.eqb (Game.timestamp g) timestamp)) (games h) in
  if io_ok
  then ({| games := filtered; stored := Some filtered |},
        Some (js "Deleted", js "Game record has been removed."))
  else (h, Some (js "Error", js "Failed to delete the game record.")).

(** [handleDeleteAll] *)
Definition handleDeleteAll (io_ok : bool) (h : History)
  : History * option Alert :=
  if io_ok
  then ({| games := []; stored := None |},
        Some (js "Success", js "All history has been deleted."))
  else (h, Some (js "Error", js "Failed to delete history.")).

(** What happens on this history screen. *)
Inductive HistoryEvent : Type :=
| Focus (io_ok : bool)
| Delete (timestamp : Z) (io_ok : bool)
| DeleteAll (io_ok : bool).

Definition history_step (h : History) (e : HistoryEvent) : History :=
  match e with
  | Focus io_ok => fst (loadGames io_ok h)
  | Delete timestamp io_ok => fst (handleDeleteGame io_ok h timestamp)
  | DeleteAll io_ok => fst (handleDeleteAll io_ok h)
  end.

Definition history_run (h : History) (es : list HistoryEvent) : History :=
  fold_left history_step es h.

End IndexTsx.

(** ** The screen file with the grouped history view *)

Module Part000.

Inductive Symbol : Type := SymX | SymO.

Record PlayerRoute : Type := mkRoute {
  playerX : jsstring;
  playerO : jsstring;
  firstPlayer : Symbol
}.

(** [HomeScreen.startGame] *)
Definition startGame (playerX playerO : jsstring)
  (firstPlayer : option Symbol) : Alert + PlayerRoute :=
  let trimmedX := trim playerX in
  let trimmedO := trim playerO in
  if negb (str_truthy trimmedX) || negb (str_truthy trimmedO)
  then inl (js "Error", js "Enter both names")
  else match firstPlayer with
       | None => inl (js "Error", js "Select who goes first")
       | Some first => inr (mkRoute trimmedX trimmedO first)
       end.

Definition calculateWinner := calculateWinner.

(** [GameScreen.saveGame] *)
Definition saveGame (route : PlayerRoute) (now : Z) (io_ok : bool)
  (store : Storage) (boardState : squares) (result : jsstring)
  : Storage * option Alert :=
  let trimmedX := trim (playerX route) in
  let trimmedO := trim (playerO route) in
  let game :=
    {| Game.board := boardState;
       Game.result := result;
       Game.players := Players.make trimmedX trimmedO;
       Game.timestamp := now |} in
  if io_ok
  then (Some (game :: parse_games store), None)
  else (store, Some (js "Error", js "Failed to save the game.")).

(** *** [HistoryScreen] *)

(** The component's state together with the stored item it writes. *)
Record History : Type := mkHistory {
  games : list Game.t;
  editingTitle : option jsstring;
  editedTitleText : jsstring;
  stored : Storage
}.

(** [{ ...game, gameNumber }] *)
Record NumberedGame : Type := mkNumbered {
  numbered : Game.t;
  gameNumber : jsstring
}.

Record HistorySection : Type := mkSection {
  title : jsstring;
  data : list NumberedGame;
  stats : JSObject nat
}.

(** One turn of [for (let game of games)].  Reading [groups[key]]
    goes through the prototype chain; pushing onto something inherited
    is a [TypeError]. *)
Definition group_step (groups : JSObject (list Game.t)) (game : Game.t)
  : option (JSObject (list Game.t)) :=
  let X := trim (Players.X (Game.players game)) in
  let O := trim (Players.O (Game.players game)) in
  let key := X ++ js " vs " ++ O in
  let groups :=
    match obj_read key groups with
    | Undefined => obj_set key [] groups
    | _ => groups
    end in
  match obj_read key groups with
  | Own arr => Some (obj_set key (arr ++ [with_players game X O]) groups)
  | _ => None
  end.

Fixpoint group_loop (groups : JSObject (list Game.t)) (games : list Game.t)
  : option (JSObject (list Game.t)) :=
  match games with
  | [] => Some groups
  | game :: rest =>
      match group_step groups game with
      | Some groups' => group_loop groups' rest
      | None => None
      end
  end.

(** The three counters the [data.map] callback increments. *)
Record Counters : Type := mkCounters {
  xWins : nat;
  oWins : nat;
  draws : nat
}.

Definition tally (c : Counters) (game : Game.t) : Counters :=
  if str_eqb (Game.result game) (Players.X (Game.players game) ++ js " wins")
  then mkCounters (xWins c + 1) (oWins c) (draws c)
  else if str_eqb (Game.result game) (Players.O (Game.players game) ++ js " wins")
  then mkCounters (xWins c) (oWins c + 1) (draws c)
  else mkCounters (xWins c) (oWins c) (draws c + 1).

(** [data.map((game, index) => ...)], from position [index] on. *)
Fixpoint number_games (index : nat) (c : Counters) (data : list Game.t)
  : list NumberedGame * Counters :=
  match data with
  | [] => ([], c)
  | game :: rest =>
      let c' := tally c game in
      let item := mkNumbered game (js "Game " ++ Number_toString (index + 1)) in
      let (items, c'') := number_games (S index) c' rest in
      (item :: items, c'')
  end.

(** The callback of [Object.entries(groups).map]; [data[0]] of an empty
    array is [undefined] and reading [.players] of it throws. *)
Definition make_section (entry : jsstring * list Game.t)
  : option HistorySection :=
  let (title, data) := entry in
  let (numberedData, c) := number_games 0 (mkCounters 0 0 0) data in
  match nth_error data 0 with
  | None => None
  | Some first =>
      Some {| title := title;
              data := numberedData;
              stats :=
                obj_set (js "Draws") (draws c)
                  (obj_set (Players.O (Game.players first)) (oWins c)
                     (obj_set (Players.X (Game.players first)) (xWins c) [])) |}
  end.

Definition groupGamesByPlayers (games : list Game.t)
  : option (list HistorySection) :=
  match group_loop [] games with
  | None => None
  | Some groups => map_opt make_section (Object_entries groups)
  end.

(** [handleDeleteGame]: nothing is changed when the write fails. *)
Definition handleDeleteGame (io_ok : bool) (h : History) (timestamp : Z)
  : History * option Alert :=
  let filtered :=
    filter (fun g => negb (Z.eqb (Game.timestamp g) timestamp)) (games h) in
  if io_ok
  then ({| games := filtered;
           editingTitle := editingTitle h;
           editedTitleText := editedTitleText h;
           stored := Some filtered |}, None)
  else (h, Some (js "Error", js "Failed to delete the game record.")).

(** [handleDeleteAll] *)
Definition handleDeleteAll (io_ok : bool) (h : History)
  : History * option Alert :=
  if io_ok
  then ({| games := [];
           editingTitle := editingTitle h;
           editedTitleText := editedTitleText h;
           stored := None |}, None)
  else (h, Some (js "Error", js "Failed to delete history.")).

(** The three alerts of the rename validation; the specification calls
    them EmptyTitleError, DuplicateTitleError and MalformedTitleError. *)
Definition EmptyTitleError : Alert :=
  (js "Error", js "Title cannot be empty").
Definition DuplicateTitleError : Alert :=
  (js "Error", js "Cannot have duplicate titles").
Definition MalformedTitleError : Alert :=
  (js "Error",
   js "Title must follow format " ++ [34%N] ++ js "PlayerX vs PlayerO"
     ++ [34%N]).

(** A piece taken out of an array by destructuring is [undefined] when
    the array is too short. *)
Definition part_truthy (y : option jsstring) : bool :=
  match y with Some s => str_truthy s | None => false end.

(** [x === y] for a string [x] and such a piece [y]. *)
Definition eq_part (x : jsstring) (y : option jsstring) : bool :=
  match y with Some s => str_eqb x s | None => false end.

(** [handleSaveEditTitle]; [None] is an exception escaping the
    handler. *)
Definition handleSaveEditTitle (io_ok : bool) (h : History)
  (oldTitle : jsstring) : option (History * option Alert) :=
  let trimmedNew := trim (editedTitleText h) in
  if negb (str_truthy trimmedNew) then Some (h, Some EmptyTitleError)
  else
    match groupGamesByPlayers (games h) with
    | None => None
    | Some sections =>
        if existsb (fun group =>
                      str_eqb (title group) trimmedNew
                      && negb (str_eqb (title group) oldTitle)) sections
        then Some (h, Some DuplicateTitleError)
        else
          let oldParts := split (js " vs ") oldTitle in
          let xNameOld := nth_error oldParts 0 in
          let oNameOld := nth_error oldParts 1 in
          let newParts := split (js " vs ") trimmedNew in
          let xNameNew := nth_error newParts 0 in
          let oNameNew := nth_error newParts 1 in
          if negb (part_truthy xNameNew) || negb (part_truthy oNameNew)
          then Some (h, Some MalformedTitleError)
          else
            match xNameNew, oNameNew with
            | Some xNameNew, Some oNameNew =>
                let updatedGames :=
                  map (fun game =>
                         if eq_part (trim (Players.X (Game.players game))) xNameOld
                            && eq_part (trim (Players.O (Game.players game))) oNameOld
                         then with_players game (trim xNameNew) (trim oNameNew)
                         else game) (games h) in
                if io_ok
                then Some ({| games := updatedGames;
                              editingTitle := None;
                              editedTitleText := [];
                              stored := Some updatedGames |}, None)
                else Some (h, Some (js "Error", js "Failed to update titles"))
            | _, _ => None
            end
    end.

(** [GameScreen.handlePress]; the first mover is the one chosen on the
    home screen. *)
Definition handlePress (route : PlayerRoute) :=
  GameScreen.handlePress (playerX route) (playerO route) (saveGame route).

Definition xFirst (route : PlayerRoute) : bool :=
  match firstPlayer route with SymX => true | SymO => false end.

Definition run (route : PlayerRoute) :=
  GameScreen.run (playerX route) (playerO route) (saveGame route)
    (xFirst route).

(** [loadGames] *)
Definition loadGames (io_ok : bool) (h : History) : History * option Alert :=
  if io_ok
  then ({| games := parse_games (stored h);
           editingTitle := editingTitle h;
           editedTitleText := editedTitleText h;
           stored := stored h |}, None)
  else (h, Some (js "Error", js "Failed to load game history.")).

(** The Edit Title button of a section header. *)
Definition pressEditTitle (h : History) (title : jsstring) : History :=
  {| games := games h;
     editingTitle := Some title;
     editedTitleText := title;
     stored := stored h |}.

(** The Cancel button. *)
Definition pressCancel (h : History) : History :=
  {| games := games h;
     editingTitle := None;
     editedTitleText := [];
     stored := stored h |}.

(** [onChangeText] of the title input. *)
Definition changeText (h : History) (text : jsstring) : History :=
  {| games := games h;
     editingTitle := editingTitle h;
     editedTitleText := text;
     stored := stored h |}.

(** What happens on the history screen; the handlers take whatever
    argument the pressed item carries. *)
Inductive HistoryEvent : Type :=
| Focus (io_ok : bool)
| Delete (timestamp : Z) (io_ok : bool)
| DeleteAll (io_ok : bool)
| EditTitle (title : jsstring)
| ChangeText (text : jsstring)
| Cancel
| SaveTitle (oldTitle : jsstring) (io_ok : bool).

Definition history_step (h : History) (e : HistoryEvent) : option History :=
  match e with
  | Focus io_ok => Some (fst (loadGames io_ok h))
  | Delete timestamp io_ok => Some (fst (handleDeleteGame io_ok h timestamp))
  | DeleteAll io_ok => Some (fst (handleDeleteAll io_ok h))
  | EditTitle title => Some (pressEditTitle h title)
  | ChangeText text => Some (changeText h text)
  | Cancel => Some (pressCancel h)
  | SaveTitle oldTitle io_ok =>
      match handleSaveEditTitle io_ok h oldTitle with
      | Some (h', _) => Some h'
      | None => None
      end
  end.

Fixpoint history_run (h : History) (es : list HistoryEvent) : option History :=
  match es with
  | [] => Some h
  | e :: es' =>
      match history_step h e with
      | Some h' => history_run h' es'
      | None => None
      end
  end.

End Part000.


(** ** Notions of the specification *)

(** A cell is empty, X or O; a board has nine of them. *)
Definition valid_cell (c : cell) : Prop :=
  c = None \/ c = Some (js "X") \/ c = Some (js "O").

Definition valid_board (b : squares) : Prop :=
  length b = 9 /\ Forall valid_cell b.

(** The three cells of a line are non-empty and all hold [s]. *)
Definition completed (b : squares) (l : nat * nat * nat) (s : jsstring)
  : Prop :=
  let '(a, b1, c) := l in
  nth_error b a = Some (Some s)
  /\ nth_error b b1 = Some (Some s)
  /\ nth_error b c = Some (Some s).

(** The index triple as the array the function returns. *)
Definition triple (l : nat * nat * nat) : list nat :=
  let '(a, b1, c) := l in [a; b1; c].

(** The key of a record: its trimmed names in the X-then-O order. *)
Definition pairing_key (g : Game.t) : jsstring :=
  trim (Players.X (Game.players g)) ++ js " vs "
  ++ trim (Players.O (Game.players g)).

(** A record with its names trimmed, as it is kept in a group. *)
Definition normalised (g : Game.t) : Game.t :=
  with_players g (trim (Players.X (Game.players g)))
    (trim (Players.O (Game.players g))).

(** The distinct keys of a list, each at its first occurrence. *)
Fixpoint first_seen (ks : list jsstring) : list jsstring :=
  match ks with
  | [] => []
  | k :: ks' => k :: filter (fun k' => negb (str_eqb k' k)) (first_seen ks')
  end.

(** The records of [games] whose key is [k], in the order of [games]. *)
Definition members (k : jsstring) (games : list Game.t) : list Game.t :=
  map normalised (filter (fun g => str_eqb (pairing_key g) k) games).

(** The dictionary the grouping loop is expected to build. *)
Definition grouped (games : list Game.t) : JSObject (list Game.t) :=
  map (fun k => (k, members k games)) (first_seen (map pairing_key games)).

(** Counting the records of a group by outcome. *)
Definition x_won (g : Game.t) : bool :=
  str_eqb (Game.result g) (Players.X (Game.players g) ++ js " wins").

Definition o_won (g : Game.t) : bool :=
  negb (x_won g)
  && str_eqb (Game.result g) (Players.O (Game.players g) ++ js " wins").

Definition drawn (g : Game.t) : bool :=
  negb (x_won g)
  && negb (str_eqb (Game.result g) (Players.O (Game.players g) ++ js " wins")).

Definition count (p : Game.t -> bool) (l : list Game.t) : nat :=
  length (filter p l).

Definition sum_values (o : JSObject nat) : nat :=
  fold_right Nat.add 0 (obj_values o).

(** How often a timestamp occurs in a store. *)
Definition occurrences (ts : Z) (games : list Game.t) : nat :=
  length (filter (fun g => Z.eqb (Game.timestamp g) ts) games).

(** ** Strings *)

Lemma str_eqb_eq s t : str_eqb s t = true <-> s = t.
Proof. unfold str_eqb; destruct (jsstring_eq_dec s t); split; congruence. Qed.

Lemma str_eqb_neq s t : str_eqb s t = false <-> s <> t.
Proof. unfold str_eqb; destruct (jsstring_eq_dec s t); split; congruence. Qed.

Lemma str_eqb_refl s : str_eqb s s = true.
Proof. now apply str_eqb_eq. Qed.

Lemma str_eqb_sym s t : str_eqb s t = str_eqb t s.
Proof.
  destruct (str_eqb t s) eqn:E.
  - apply str_eqb_eq in E; subst; apply str_eqb_refl.
  - apply str_eqb_neq in E; apply str_eqb_neq; congruence.
Qed.

Lemma str_truthy_false s : str_truthy s = false <-> s = [].
Proof. destruct s; simpl; split; congruence. Qed.

(** *** [trim] *)

Lemma trimStart_split s :
  exists pre, s = pre ++ trimStart s /\ forallb isWhiteSpace pre = true.
Proof.
  induction s as [|c s IH]; simpl.
  - now exists [].
  - destruct (isWhiteSpace c) eqn:E.
    + destruct IH as (pre & Hs & Hpre).
      exists (c :: pre); simpl; rewrite E, Hpre; split; [congruence | reflexivity].
    + now exists [].
Qed.

Lemma trimStart_head s c r : trimStart s = c :: r -> isWhiteSpace c = false.
Proof.
  induction s as [|a s IH]; simpl; [discriminate|].
  destruct (isWhiteSpace a) eqn:E; auto.
  intros H; injection H as -> _; exact E.
Qed.

Lemma trimStart_fixed s :
  (forall c r, s = c :: r -> isWhiteSpace c = false) -> trimStart s = s.
Proof.
  destruct s as [|c r]; simpl; auto.
  intros H; now rewrite (H c r eq_refl).
Qed.

Lemma trimEnd_split s :
  exists suf, s = trimEnd s ++ suf /\ forallb isWhiteSpace suf = true.
Proof.
  unfold trimEnd.
  destruct (trimStart_split (rev s)) as (pre & Hs & Hpre).
  exists (rev pre); split.
  - rewrite <- rev_app_distr, <- Hs; symmetry; apply rev_involutive.
  - rewrite forallb_forall in *; intros x Hx; apply Hpre.
    now apply in_rev.
Qed.

Lemma trimEnd_last s r c : trimEnd s = r ++ [c] -> isWhiteSpace c = false.
Proof.
  unfold trimEnd; intros H.
  apply (f_equal (@rev N)) in H.
  rewrite rev_involutive, rev_app_distr in H; simpl in H.
  eapply trimStart_head; eauto.
Qed.

Lemma trimEnd_fixed s :
  (forall r c, s = r ++ [c] -> isWhiteSpace c = false) -> trimEnd s = s.
Proof.
  intros H; unfold trimEnd.
  rewrite trimStart_fixed; [apply rev_involutive|].
  intros c r E; apply (H (rev r) c).
  rewrite <- (rev_involutive s), E; reflexivity.
Qed.

Lemma trim_split s :
  exists pre suf,
    s = pre ++ trim s ++ suf
    /\ forallb isWhiteSpace pre = true
    /\ forallb isWhiteSpace suf = true.
Proof.
  destruct (trimStart_split s) as (pre & Hs & Hpre).
  destruct (trimEnd_split (trimStart s)) as (suf & Ht & Hsuf).
  exists pre, suf; unfold trim; repeat split; auto.
  now rewrite <- Ht.
Qed.

Lemma trim_head s c r : trim s = c :: r -> isWhiteSpace c = false.
Proof.
  unfold trim; intros H.
  destruct (trimEnd_split (trimStart s)) as (suf & Ht & _).
  rewrite H in Ht; simpl in Ht.
  eapply trimStart_head; eauto.
Qed.

Lemma trim_last s r c : trim s = r ++ [c] -> isWhiteSpace c = false.
Proof. unfold trim; apply trimEnd_last. Qed.

Lemma trim_idempotent s : trim (trim s) = trim s.
Proof.
  unfold trim at 1.
  rewrite trimStart_fixed by (intros c r; apply trim_head).
  apply trimEnd_fixed; intros r c; apply trim_last.
Qed.


(** ** The win detector *)

Section WinDetector.

Variable b : squares.
Hypothesis Hb : valid_board b.

Lemma valid_cell_at a s :
  nth_error b a = Some (Some s) -> s = js "X" \/ s = js "O".
Proof.
  intros H; destruct Hb as [_ Hcells].
  rewrite Forall_forall in Hcells.
  destruct (Hcells (Some s) (nth_error_In _ _ H)) as [E|[E|E]];
    [discriminate | injection E | injection E]; auto.
Qed.

Lemma symbol_truthy a s : nth_error b a = Some (Some s) -> str_truthy s = true.
Proof. intros H; destruct (valid_cell_at _ H); subst; reflexivity. Qed.

Lemma strict_eq_true v w : strict_eq v w = true <-> v = w.
Proof. unfold strict_eq; destruct (cell_eq_dec v w); split; congruence. Qed.

(** The loop returns at a completed line ... *)
Lemma scan_lines_hit l rest s :
  completed b l s -> scan_lines b (l :: rest) = Some (s, triple l).
Proof.
  destruct l as [[a b1] c]; simpl; intros (Ha & Hb1 & Hc).
  rewrite Ha, Hb1, Hc, (symbol_truthy _ Ha).
  replace (strict_eq (Some (Some s)) (Some (Some s))) with true
    by (symmetry; now apply strict_eq_true).
  reflexivity.
Qed.

(** ... and goes on to the next line otherwise. *)
Lemma scan_lines_skip l rest :
  (forall s, ~ completed b l s) -> scan_lines b (l :: rest) = scan_lines b rest.
Proof.
  destruct l as [[a b1] c]; simpl; intros Hno.
  destruct (nth_error b a) as [[s|]|] eqn:Ha; auto.
  destruct (str_truthy s); auto; simpl.
  match goal with
  | |- context [strict_eq ?v (nth_error b b1)] =>
      destruct (strict_eq v (nth_error b b1)) eqn:E1; auto
  end.
  match goal with
  | |- context [strict_eq ?v (nth_error b c)] =>
      destruct (strict_eq v (nth_error b c)) eqn:E2; auto
  end.
  apply strict_eq_true in E1, E2.
  exfalso; apply (Hno s); auto.
Qed.

Lemma scan_lines_first pre l post s :
  completed b l s ->
  (forall l' s', In l' pre -> ~ completed b l' s') ->
  scan_lines b (pre ++ l :: post) = Some (s, triple l).
Proof.
  intros Hl; induction pre as [|p pre IH]; intros Hpre.
  - now apply scan_lines_hit.
  - change ((p :: pre) ++ l :: post) with (p :: (pre ++ l :: post)).
    rewrite scan_lines_skip.
    + apply IH; intros; apply Hpre; now right.
    + intros s'; apply Hpre; now left.
Qed.

Lemma scan_lines_none ls :
  (forall l s, In l ls -> ~ completed b l s) -> scan_lines b ls = None.
Proof.
  induction ls as [|l ls IH]; intros H; [reflexivity|].
  rewrite scan_lines_skip.
  - apply IH; intros; apply H; now right.
  - intros s; apply H; now left.
Qed.

Lemma completed_decide l :
  (exists s, completed b l s) \/ (forall s, ~ completed b l s).
Proof.
  destruct l as [[a b1] c]; unfold completed.
  destruct (nth_error b a) as [[s|]|] eqn:Ha;
    try (right; intros s' (H & _); discriminate).
  destruct (cell_eq_dec (nth_error b b1) (Some (Some s))) as [E1|E1];
    [|right; intros s' (H & H1 & _); congruence].
  destruct (cell_eq_dec (nth_error b c) (Some (Some s))) as [E2|E2];
    [|right; intros s' (H & _ & H2); congruence].
  left; exists s; auto.
Qed.

(** Among the lines of a list with a completed one there is a first. *)
Lemma first_completed ls :
  (exists l s, In l ls /\ completed b l s) ->
  exists pre l post s,
    ls = pre ++ l :: post /\ completed b l s
    /\ forall l' s', In l' pre -> ~ completed b l' s'.
Proof.
  induction ls as [|p ls IH]; intros (l & s & Hin & Hl); [destruct Hin|].
  destruct (completed_decide p) as [[s' Hp]|Hp].
  - exists [], p, ls, s'; repeat split; auto.
  - destruct Hin as [->|Hin]; [elim (Hp s Hl)|].
    destruct IH as (pre & l0 & post & s0 & -> & Hl0 & Hpre); eauto.
    exists (p :: pre), l0, post, s0; repeat split; auto.
    intros l' s' [<-|Hin']; eauto.
Qed.

End WinDetector.

(** C1.  On a board of nine cells, each empty, X or O, [calculateWinner]
    looks at the eight lines in the order rows, columns, diagonals; it
    returns the symbol and the index triple of the first line whose three
    cells hold the same symbol, such a first line exists as soon as some
    line is completed, and it returns nothing when no line is completed.
    Being a function defined on every list of cells, it has no error
    case. *)
Theorem calculateWinner_first_completed_line (b : squares) :
  valid_board b ->
  lines = [ (0, 1, 2); (3, 4, 5); (6, 7, 8); (0, 3, 6); (1, 4, 7);
            (2, 5, 8); (0, 4, 8); (2, 4, 6) ]
  /\ (forall pre l post s,
        lines = pre ++ l :: post ->
        completed b l s ->
        (forall l' s', In l' pre -> ~ completed b l' s') ->
        calculateWinner b = Some (s, triple l)
        /\ (s = js "X" \/ s = js "O"))
  /\ ((exists l s, In l lines /\ completed b l s) ->
      exists pre l post s,
        lines = pre ++ l :: post /\ completed b l s
        /\ (forall l' s', In l' pre -> ~ completed b l' s')
        /\ calculateWinner b = Some (s, triple l))
  /\ ((forall l s, In l lines -> ~ completed b l s) ->
      calculateWinner b = None).
Proof.
  intros Hb; split; [reflexivity|]; split; [|split].
  - intros pre l post s Hlines Hl Hpre; split.
    + unfold calculateWinner; rewrite Hlines.
      now apply scan_lines_first.
    + destruct l as [[a b1] c]; destruct Hl as (Ha & _).
      eapply valid_cell_at; eauto.
  - intros Hex.
    apply first_completed in Hex.
    destruct Hex as (pre & l & post & s & E & Hl & Hpre).
    exists pre, l, post, s; repeat split; auto.
    unfold calculateWinner; rewrite E; now apply scan_lines_first.
  - intros Hnone; unfold calculateWinner; now apply scan_lines_none.
Qed.

Definition board_x_top_row : squares :=
  [ Some (js "X"); Some (js "X"); Some (js "X");
    Some (js "O"); Some (js "O"); None;
    None; None; None ].

Lemma board_x_top_row_valid : valid_board board_x_top_row.
Proof.
  split; [reflexivity|].
  unfold board_x_top_row.
  repeat (apply Forall_cons; [unfold valid_cell; auto|]).
  apply Forall_nil.
Defined.

Lemma calculateWinner_first_completed_line_witness :
  valid_board board_x_top_row
  /\ calculateWinner board_x_top_row = Some (js "X", [0; 1; 2]).
Proof.
  split; [exact board_x_top_row_valid|].
  destruct (calculateWinner_first_completed_line board_x_top_row_valid)
    as (_ & Hfirst & _).
  apply (Hfirst [] (0, 1, 2) (tl lines) (js "X")).
  - reflexivity.
  - repeat split.
  - intros l' s' [].
Defined.

(** The two boards the specification singles out: nothing is found on
    the empty board, nor on a full board without a completed line. *)
Example calculateWinner_empty_board :
  calculateWinner (repeat None 9) = None.
Proof. reflexivity. Qed.

Example calculateWinner_full_board_draw :
  calculateWinner
    [ Some (js "X"); Some (js "O"); Some (js "X");
      Some (js "X"); Some (js "O"); Some (js "O");
      Some (js "O"); Some (js "X"); Some (js "X") ] = None.
Proof. reflexivity. Qed.

(** With two completed lines the earlier one in the fixed order wins. *)
Example calculateWinner_tie_break :
  calculateWinner
    [ Some (js "O"); None; Some (js "X");
      Some (js "O"); None; Some (js "X");
      Some (js "O"); None; Some (js "X") ] = Some (js "O", [0; 3; 6]).
Proof. reflexivity. Qed.

(** ** Deleting one record *)

(** A list with exactly one element satisfying [p] splits around it. *)
Lemma filter_single {A} (p : A -> bool) (l : list A) :
  length (filter p l) = 1 ->
  exists before x after,
    l = before ++ x :: after /\ p x = true
    /\ filter (fun a => negb (p a)) l = before ++ after
    /\ forall a, In a (before ++ after) -> p a = false.
Proof.
  induction l as [|a l IH]; simpl; [discriminate|].
  destruct (p a) eqn:E; simpl; intros H.
  - exists [], a, l; simpl.
    assert (Hnone : filter p l = []) by (destruct (filter p l); [auto|discriminate]).
    assert (Hall : forall y, In y l -> p y = false).
    { intros y Hy; destruct (p y) eqn:Ey; auto.
      assert (Hin : In y (filter p l)) by (apply filter_In; auto).
      rewrite Hnone in Hin; destruct Hin. }
    repeat split; auto.
    clear - Hall; induction l as [|y l IH]; simpl; auto.
    rewrite (Hall y) by now left.
    simpl; f_equal; apply IH; intros; apply Hall; now right.
  - destruct (IH H) as (before & x & after & -> & Hx & Hf & Hall).
    exists (a :: before), x, after; simpl; repeat split; auto.
    + now f_equal.
    + intros y [<-|Hy]; auto.
Qed.

(** C7.  [handleDeleteGame] keeps exactly the records whose timestamp
    differs from the given one; when the timestamp occurs exactly once in
    a store of N records, the result is the store with that one record
    taken out: N-1 records, the others in their order and untouched. *)
Theorem handleDeleteGame_removes_timestamp (h : Part000.History) (ts : Z) :
  let h' := fst (Part000.handleDeleteGame true h ts) in
  snd (Part000.handleDeleteGame true h ts) = None
  /\ Part000.stored h' = Some (Part000.games h')
  /\ (forall g, In g (Part000.games h')
                <-> In g (Part000.games h) /\ Game.timestamp g <> ts)
  /\ (occurrences ts (Part000.games h) = 1 ->
      exists before g after,
        Part000.games h = before ++ g :: after
        /\ Game.timestamp g = ts
        /\ Part000.games h' = before ++ after
        /\ (forall g', In g' (before ++ after) -> Game.timestamp g' <> ts)
        /\ length (Part000.games h') + 1 = length (Part000.games h)).
Proof.
  simpl; split; [reflexivity|]; split; [reflexivity|]; split.
  - intros g; rewrite filter_In, negb_true_iff, Z.eqb_neq; tauto.
  - intros Hone; apply filter_single in Hone.
    destruct Hone as (before & g & after & E & Hg & Hf & Hall).
    exists before, g, after; rewrite Hf, E.
    repeat split; auto.
    + now apply Z.eqb_eq.
    + intros g' Hg'; apply Z.eqb_neq; auto.
    + rewrite !length_app; simpl; lia.
Qed.

Definition three_games : list Game.t :=
  [ Game.make [] (js "Ann wins") (Players.make (js "Ann") (js "Bo")) 30;
    Game.make [] (js "Draw") (Players.make (js "Ann") (js "Bo")) 20;
    Game.make [] (js "Bo wins") (Players.make (js "Bo") (js "Ann")) 10 ].

Lemma handleDeleteGame_removes_timestamp_witness :
  occurrences 20 three_games = 1
  /\ exists before g after,
       three_games = before ++ g :: after
       /\ Game.timestamp g = 20%Z
       /\ Part000.games
            (fst (Part000.handleDeleteGame true
                    (Part000.mkHistory three_games None [] (Some three_games))
                    20)) = before ++ after
       /\ (forall g', In g' (before ++ after) -> Game.timestamp g' <> 20%Z)
       /\ length
            (Part000.games
               (fst (Part000.handleDeleteGame true
                       (Part000.mkHistory three_games None []
                          (Some three_games)) 20))) + 1
          = length three_games.
Proof.
  split; [reflexivity|].
  apply (handleDeleteGame_removes_timestamp
           (Part000.mkHistory three_games None [] (Some three_games)) 20).
  reflexivity.
Defined.

(** A failed write leaves the history as it was. *)
Lemma handleDeleteGame_write_failure h ts :
  fst (Part000.handleDeleteGame false h ts) = h.
Proof. reflexivity. Qed.

(** ** Objects as dictionaries *)

Section Objects.

Context {V : Type}.
Implicit Types (o : JSObject V) (k : jsstring) (v : V).

Lemma obj_get_notin k o : ~ In k (obj_keys o) -> obj_get k o = None.
Proof.
  induction o as [|[k' v'] o IH]; simpl; auto; intros H.
  destruct (str_eqb k k') eqn:E.
  - apply str_eqb_eq in E; subst; tauto.
  - apply IH; tauto.
Qed.

Lemma obj_get_app_notin k o o' :
  ~ In k (obj_keys o) -> obj_get k (o ++ o') = obj_get k o'.
Proof.
  induction o as [|[k' v'] o IH]; simpl; auto; intros H.
  destruct (str_eqb k k') eqn:E.
  - apply str_eqb_eq in E; subst; tauto.
  - apply IH; tauto.
Qed.

Lemma obj_set_app_notin k v o o' :
  ~ In k (obj_keys o) -> obj_set k v (o ++ o') = o ++ obj_set k v o'.
Proof.
  induction o as [|[k' v'] o IH]; simpl; auto; intros H.
  destruct (str_eqb k k') eqn:E.
  - apply str_eqb_eq in E; subst; tauto.
  - f_equal; apply IH; tauto.
Qed.

Lemma obj_set_notin k v o :
  ~ In k (obj_keys o) -> obj_set k v o = o ++ [(k, v)].
Proof.
  intros H; rewrite <- (app_nil_r o) at 1.
  now rewrite obj_set_app_notin.
Qed.

(** Dictionaries given by a function on a duplicate-free list of keys. *)
Variable f : jsstring -> V.

Lemma obj_keys_tabulate ks : obj_keys (map (fun k => (k, f k)) ks) = ks.
Proof. unfold obj_keys; rewrite map_map; simpl; apply map_id. Qed.

Lemma obj_get_tabulate k ks :
  In k ks -> obj_get k (map (fun k => (k, f k)) ks) = Some (f k).
Proof.
  induction ks as [|k' ks IH]; simpl; [tauto|]; intros H.
  destruct (str_eqb k k') eqn:E.
  - apply str_eqb_eq in E; now subst.
  - apply str_eqb_neq in E; destruct H; [congruence|auto].
Qed.

Lemma obj_set_tabulate k v ks :
  NoDup ks -> In k ks ->
  obj_set k v (map (fun k => (k, f k)) ks)
  = map (fun k' => (k', if str_eqb k' k then v else f k')) ks.
Proof.
  induction ks as [|k' ks IH]; simpl; [tauto|]; intros Hnd H.
  inversion Hnd as [|? ? Hk' Hnd']; subst.
  rewrite (str_eqb_sym k' k).
  destruct (str_eqb k k') eqn:E.
  - apply str_eqb_eq in E; subst k'; f_equal.
    apply map_ext_in; intros a Ha.
    destruct (str_eqb a k) eqn:Ea; auto.
    apply str_eqb_eq in Ea; subst; tauto.
  - apply str_eqb_neq in E; f_equal.
    destruct H; [congruence|auto].
Qed.

End Objects.

(** A key with a space in it is neither inherited from [Object.prototype]
    nor an array index. *)
Lemma inherited_no_space k : In 32%N k -> inherited k = false.
Proof.
  intros Hk; destruct (inherited k) eqn:E; auto.
  unfold inherited in E; apply existsb_exists in E.
  destruct E as (n & Hn & Heq); apply str_eqb_eq in Heq; subst n.
  assert (Hnames : forallb (fun n => negb (existsb (N.eqb 32) n))
                     Object_prototype_names = true) by reflexivity.
  rewrite forallb_forall in Hnames.
  specialize (Hnames _ Hn); apply negb_true_iff in Hnames.
  assert (Hex : existsb (N.eqb 32) k = true)
    by (apply existsb_exists; exists 32%N; split; auto).
  congruence.
Qed.

Lemma digits_val_no_space s acc : In 32%N s -> digits_val s acc = None.
Proof.
  revert acc; induction s as [|c s IH]; simpl; [tauto|]; intros acc H.
  destruct (digit_val c) eqn:E; auto.
  apply IH; destruct H as [->|H]; [vm_compute in E; discriminate|auto].
Qed.

Lemma arrayIndex_no_space k : In 32%N k -> arrayIndex k = None.
Proof.
  intros H; destruct k as [|c rest]; [reflexivity|].
  unfold arrayIndex.
  destruct ((c =? 48)%N && str_truthy rest); auto.
  now rewrite digits_val_no_space.
Qed.

Lemma Object_entries_named {V} (o : JSObject V) :
  (forall k, In k (obj_keys o) -> arrayIndex k = None) ->
  Object_entries o = o.
Proof.
  intros H; unfold Object_entries.
  assert (Hidx : index_props o = []).
  { induction o as [|[k v] o IH]; simpl; auto.
    unfold index_props in *; simpl.
    rewrite (H k) by (now left); simpl.
    apply IH; intros; apply H; now right. }
  rewrite Hidx; simpl.
  induction o as [|[k v] o IH]; simpl; auto.
  unfold is_named at 1; simpl.
  rewrite (H k) by now left.
  f_equal; apply IH.
  - intros; apply H; now right.
  - unfold index_props in *; simpl in Hidx.
    rewrite (H k) in Hidx by (now left); exact Hidx.
Qed.

Lemma pairing_key_space g : In 32%N (pairing_key g).
Proof. unfold pairing_key; apply in_or_app; right; now left. Qed.

(** ** Keys in first-seen order *)

Lemma first_seen_In k ks : In k (first_seen ks) <-> In k ks.
Proof.
  induction ks as [|a ks IH]; simpl; [tauto|].
  rewrite filter_In, IH, negb_true_iff, str_eqb_neq.
  destruct (jsstring_eq_dec a k); [tauto|].
  split; [tauto|]; intros [?|?]; [tauto|]; right; split; auto.
Qed.

Lemma first_seen_NoDup ks : NoDup (first_seen ks).
Proof.
  induction ks as [|a ks IH]; simpl; constructor.
  - rewrite filter_In, negb_true_iff, str_eqb_neq; tauto.
  - now apply NoDup_filter.
Qed.

Lemma first_seen_snoc ks k :
  first_seen (ks ++ [k])
  = if in_dec jsstring_eq_dec k ks then first_seen ks
    else first_seen ks ++ [k].
Proof.
  induction ks as [|a ks IH]; simpl; auto.
  rewrite IH.
  destruct (jsstring_eq_dec a k) as [->|Hne].
  - destruct (in_dec jsstring_eq_dec k ks); auto.
    rewrite filter_app; simpl; rewrite str_eqb_refl; simpl.
    now rewrite app_nil_r.
  - destruct (in_dec jsstring_eq_dec k ks); auto.
    rewrite filter_app; simpl.
    replace (str_eqb k a) with false
      by (symmetry; apply str_eqb_neq; congruence).
    reflexivity.
Qed.

(** Keys first seen in a prefix come, in their order, before the keys
    first seen after it. *)
Lemma first_seen_app p q :
  first_seen (p ++ q)
  = first_seen p
    ++ filter (fun k => negb (existsb (str_eqb k) p)) (first_seen q).
Proof.
  induction p as [|a p IH]; simpl.
  - symmetry; apply forallb_filter_id, forallb_forall; auto.
  - rewrite IH, filter_app; do 2 f_equal.
    generalize (first_seen q) as l; intros l.
    induction l as [|k l IHl]; simpl; auto.
    destruct (str_eqb k a) eqn:E1, (existsb (str_eqb k) p) eqn:E2; simpl;
      rewrite ?E1; simpl; rewrite ?IHl; auto.
Qed.

(** ** The grouping loop builds [grouped] *)

Lemma members_snoc k done g :
  members k (done ++ [g])
  = members k done
    ++ (if str_eqb (pairing_key g) k then [normalised g] else []).
Proof.
  unfold members; rewrite filter_app, map_app; simpl.
  now destruct (str_eqb (pairing_key g) k).
Qed.

Lemma members_absent k games :
  ~ In k (map pairing_key games) -> members k games = [].
Proof.
  unfold members; induction games as [|g games IH]; simpl; auto; intros H.
  destruct (str_eqb (pairing_key g) k) eqn:E.
  - apply str_eqb_eq in E; tauto.
  - apply IH; tauto.
Qed.

Lemma obj_read_own {V} k (o : JSObject V) v :
  obj_get k o = Some v -> obj_read k o = Own v.
Proof. unfold obj_read; now intros ->. Qed.

Lemma obj_read_undefined {V} k (o : JSObject V) :
  obj_get k o = None -> In 32%N k -> obj_read k o = Undefined.
Proof.
  unfold obj_read; intros -> H; now rewrite inherited_no_space.
Qed.

Lemma group_step_grouped done g :
  Part000.group_step (grouped done) g = Some (grouped (done ++ [g])).
Proof.
  unfold Part000.group_step.
  change (trim (Players.X (Game.players g)) ++ js " vs "
          ++ trim (Players.O (Game.players g))) with (pairing_key g).
  change (with_players g (trim (Players.X (Game.players g)))
            (trim (Players.O (Game.players g)))) with (normalised g).
  cbv zeta.
  set (key := pairing_key g).
  set (ks := map pairing_key done).
  assert (Hgrouped : grouped (done ++ [g])
                     = map (fun k => (k, members k (done ++ [g])))
                         (first_seen (ks ++ [key]))).
  { unfold grouped; now rewrite map_app. }
  rewrite Hgrouped, first_seen_snoc.
  destruct (in_dec jsstring_eq_dec key ks) as [Hin|Hnin].
  - assert (Hget : obj_get key (grouped done) = Some (members key done)).
    { unfold grouped; apply obj_get_tabulate with (f := fun k => members k done).
      now apply first_seen_In. }
    rewrite (obj_read_own _ _ Hget), (obj_read_own _ _ Hget).
    unfold grouped; fold ks.
    rewrite obj_set_tabulate with (f := fun k => members k done)
      by (auto using first_seen_NoDup; now apply first_seen_In).
    f_equal; apply map_ext; intros a.
    rewrite members_snoc; fold key; rewrite (str_eqb_sym key a).
    destruct (str_eqb a key) eqn:E; [|now rewrite app_nil_r].
    apply str_eqb_eq in E; now rewrite E.
  - assert (Hkeys : ~ In key (obj_keys (grouped done))).
    { unfold grouped; rewrite obj_keys_tabulate with (f := fun k => members k done).
      now rewrite first_seen_In. }
    rewrite (obj_read_undefined _ _ (obj_get_notin _ _ Hkeys) (pairing_key_space g)).
    rewrite (obj_set_notin _ _ _ Hkeys).
    assert (Hget : obj_get key (grouped done ++ [(key, [])]) = Some []).
    { rewrite obj_get_app_notin by assumption; simpl.
      now rewrite str_eqb_refl. }
    rewrite (obj_read_own _ _ Hget).
    rewrite obj_set_app_notin by assumption; simpl.
    rewrite str_eqb_refl, map_app; simpl.
    rewrite members_snoc, (members_absent _ _ Hnin); fold key.
    rewrite str_eqb_refl; simpl.
    f_equal; f_equal; unfold grouped; fold ks.
    apply map_ext_in; intros a Ha; f_equal.
    rewrite members_snoc; fold key.
    replace (str_eqb key a) with false; [now rewrite app_nil_r|].
    symmetry; apply str_eqb_neq; intros ->.
    apply Hnin; now apply first_seen_In.
Qed.

Lemma group_loop_grouped done games :
  Part000.group_loop (grouped done) games = Some (grouped (done ++ games)).
Proof.
  revert done; induction games as [|g games IH]; intros done; simpl.
  - now rewrite app_nil_r.
  - rewrite group_step_grouped, IH, <- app_assoc; reflexivity.
Qed.

Lemma grouped_entries games :
  Object_entries (grouped games) = grouped games.
Proof.
  apply Object_entries_named; intros k Hk.
  unfold grouped in Hk.
  rewrite obj_keys_tabulate with (f := fun k => members k games) in Hk.
  apply first_seen_In, in_map_iff in Hk; destruct Hk as (g & <- & _).
  apply arrayIndex_no_space, pairing_key_space.
Qed.

(** ** Numbering and counting inside a group *)

Lemma number_games_numbered i c data :
  map Part000.numbered (fst (Part000.number_games i c data)) = data.
Proof.
  revert i c; induction data as [|g data IH]; intros i c; simpl; auto.
  specialize (IH (S i) (Part000.tally c g)).
  destruct (Part000.number_games (S i) (Part000.tally c g) data); simpl in *.
  now f_equal.
Qed.

Lemma number_games_nth i c data j g :
  nth_error data j = Some g ->
  nth_error (fst (Part000.number_games i c data)) j
  = Some (Part000.mkNumbered g (js "Game " ++ Number_toString (i + j + 1))).
Proof.
  revert i c j; induction data as [|a data IH]; intros i c j; simpl.
  - destruct j; discriminate.
  - specialize (IH (S i) (Part000.tally c a)).
    destruct (Part000.number_games (S i) (Part000.tally c a) data) as [items c'].
    destruct j as [|j]; simpl in *.
    + intros H; injection H as ->; now rewrite Nat.add_0_r.
    + intros H; rewrite (IH j H).
      now replace (i + S j + 1) with (S (i + j + 1)) by lia.
Qed.

Lemma tally_counts c g :
  Part000.tally c g
  = Part000.mkCounters
      (Part000.xWins c + (if x_won g then 1 else 0))
      (Part000.oWins c + (if o_won g then 1 else 0))
      (Part000.draws c + (if drawn g then 1 else 0)).
Proof.
  unfold Part000.tally, o_won, drawn, x_won.
  destruct (str_eqb (Game.result g) (Players.X (Game.players g) ++ js " wins"));
    [|destruct (str_eqb (Game.result g)
                  (Players.O (Game.players g) ++ js " wins"))];
    simpl; now rewrite !Nat.add_0_r.
Qed.

Lemma number_games_counters i c data :
  snd (Part000.number_games i c data)
  = Part000.mkCounters
      (Part000.xWins c + count x_won data)
      (Part000.oWins c + count o_won data)
      (Part000.draws c + count drawn data).
Proof.
  revert i c; induction data as [|g data IH]; intros i c; simpl.
  - unfold count; simpl; rewrite !Nat.add_0_r; now destruct c.
  - specialize (IH (S i) (Part000.tally c g)).
    destruct (Part000.number_games (S i) (Part000.tally c g) data) as [items c'].
    simpl in *; rewrite IH, tally_counts; simpl.
    unfold count; simpl.
    destruct (x_won g), (o_won g), (drawn g); simpl; f_equal; lia.
Qed.

(** Every record falls under exactly one of the three outcomes. *)
Lemma outcome_partition data :
  count x_won data + count o_won data + count drawn data = length data.
Proof.
  unfold count; induction data as [|g data IH]; simpl; auto.
  assert (Hone : (x_won g = true /\ o_won g = false /\ drawn g = false)
                 \/ (x_won g = false /\ o_won g = true /\ drawn g = false)
                 \/ (x_won g = false /\ o_won g = false /\ drawn g = true)).
  { unfold o_won, drawn; destruct (x_won g); simpl; auto.
    match goal with |- context [str_eqb ?s ?t] => destruct (str_eqb s t) end;
      simpl; auto. }
  destruct Hone as [(-> & -> & ->)|[(-> & -> & ->)|(-> & -> & ->)]];
    simpl; lia.
Qed.

(** What the section of a non-empty group looks like. *)
Lemma make_section_nonempty k first rest :
  exists s,
    Part000.make_section (k, first :: rest) = Some s
    /\ Part000.title s = k
    /\ map Part000.numbered (Part000.data s) = first :: rest
    /\ (forall j g, nth_error (first :: rest) j = Some g ->
          nth_error (Part000.data s) j
          = Some (Part000.mkNumbered g (js "Game " ++ Number_toString (j + 1))))
    /\ Part000.stats s
       = obj_set (js "Draws") (count drawn (first :: rest))
           (obj_set (Players.O (Game.players first))
              (count o_won (first :: rest))
              (obj_set (Players.X (Game.players first))
                 (count x_won (first :: rest)) [])).
Proof.
  unfold Part000.make_section.
  pose proof (number_games_numbered 0 (Part000.mkCounters 0 0 0) (first :: rest)) as Hn.
  pose proof (number_games_counters 0 (Part000.mkCounters 0 0 0) (first :: rest)) as Hc.
  pose proof (fun j g => @number_games_nth 0 (Part000.mkCounters 0 0 0)
                           (first :: rest) j g) as Hj.
  destruct (Part000.number_games 0 (Part000.mkCounters 0 0 0) (first :: rest))
    as [numberedData c].
  simpl in Hn, Hc, Hj; subst c; simpl.
  eexists; split; [reflexivity|]; simpl; repeat split; auto.
Qed.

Lemma members_present k games :
  In k (map pairing_key games) ->
  exists first rest, members k games = first :: rest.
Proof.
  intros H; apply in_map_iff in H; destruct H as (g & <- & Hg).
  destruct (members (pairing_key g) games) as [|first rest] eqn:E; eauto.
  assert (Hin : In (normalised g) (members (pairing_key g) games)).
  { unfold members; apply in_map, filter_In; split; auto.
    apply str_eqb_refl. }
  rewrite E in Hin; destruct Hin.
Qed.

(** ** The sections of the history view *)

(** The section built for key [k]: its title, its records, their
    numbering, and the object of counters keyed by the first record's
    names. *)
Definition section_of (games : list Game.t) (k : jsstring)
  (s : Part000.HistorySection) : Prop :=
  Part000.title s = k
  /\ map Part000.numbered (Part000.data s) = members k games
  /\ (forall j r, nth_error (Part000.data s) j = Some r ->
        Part000.gameNumber r = js "Game " ++ Number_toString (j + 1))
  /\ exists first rest,
       members k games = first :: rest
       /\ Part000.stats s
          = obj_set (js "Draws") (count drawn (members k games))
              (obj_set (Players.O (Game.players first))
                 (count o_won (members k games))
                 (obj_set (Players.X (Game.players first))
                    (count x_won (members k games)) [])).

Lemma make_section_members games k :
  In k (map pairing_key games) ->
  exists s, Part000.make_section (k, members k games) = Some s
            /\ section_of games k s.
Proof.
  intros Hk; destruct (members_present _ _ Hk) as (first & rest & E).
  destruct (make_section_nonempty k first rest) as (s & Hs & Ht & Hd & Hn & Hst).
  exists s; rewrite E; split; auto.
  unfold section_of; rewrite E; repeat split; auto.
  - intros j r Hr.
    assert (Hg : nth_error (first :: rest) j = Some (Part000.numbered r))
      by (rewrite <- Hd; now apply map_nth_error).
    rewrite (Hn _ _ Hg) in Hr; injection Hr as <-; reflexivity.
  - exists first, rest; auto.
Qed.

Lemma map_opt_sections games ks :
  (forall k, In k ks -> In k (map pairing_key games)) ->
  exists gs,
    map_opt Part000.make_section (map (fun k => (k, members k games)) ks)
    = Some gs
    /\ Forall2 (section_of games) ks gs.
Proof.
  induction ks as [|k ks IH]; intros Hks; cbn [map map_opt].
  - exists []; split; auto.
  - destruct (make_section_members games k) as (s & -> & Hs);
      [apply Hks; now left|].
    destruct IH as (gs & -> & Hgs); [intros; apply Hks; now right|].
    exists (s :: gs); split; auto.
Qed.

(** The grouping never throws, and its sections are those of the keys
    in first-seen order. *)
Lemma groupGamesByPlayers_sections games :
  exists gs,
    Part000.groupGamesByPlayers games = Some gs
    /\ Forall2 (section_of games) (first_seen (map pairing_key games)) gs.
Proof.
  unfold Part000.groupGamesByPlayers.
  change (@nil (jsstring * list Game.t)) with (grouped []) at 1.
  rewrite group_loop_grouped; simpl.
  rewrite grouped_entries.
  apply map_opt_sections; intros k; apply first_seen_In.
Qed.

Lemma Forall2_titles games ks gs :
  Forall2 (section_of games) ks gs -> map Part000.title gs = ks.
Proof.
  induction 1 as [|k s ks gs Hs _ IH]; simpl; auto.
  destruct Hs as (-> & _); now f_equal.
Qed.

Lemma Forall2_section_in games ks gs s :
  Forall2 (section_of games) ks gs -> In s gs ->
  In (Part000.title s) ks /\ section_of games (Part000.title s) s.
Proof.
  induction 1 as [|k s' ks gs Hs _ IH]; simpl; [tauto|].
  intros [<-|Hin].
  - destruct Hs as (Ht & Hrest); rewrite Ht; split; [now left|].
    split; auto.
  - destruct (IH Hin); auto.
Qed.

Lemma normalised_key r r' :
  normalised r = normalised r' -> pairing_key r = pairing_key r'.
Proof.
  unfold normalised, with_players, pairing_key; intros H.
  injection H as _ _ HX HO; now rewrite HX, HO.
Qed.

Lemma in_members r k games :
  In r (members k games) <->
  exists g, In g games /\ pairing_key g = k /\ normalised g = r.
Proof.
  unfold members; rewrite in_map_iff; split.
  - intros (g & <- & Hg); apply filter_In in Hg; destruct Hg as [Hg Hk].
    apply str_eqb_eq in Hk; eauto.
  - intros (g & Hg & Hk & <-); exists g; split; auto.
    apply filter_In; split; auto; now apply str_eqb_eq.
Qed.

(** Two strings free of spaces that are followed by a space and agree
    as a whole agree up to that space. *)
Lemma app_space_inj (a a' r r' : jsstring) :
  ~ In 32%N a -> ~ In 32%N a' ->
  a ++ 32%N :: r = a' ++ 32%N :: r' -> a = a'.
Proof.
  revert a'; induction a as [|c a IH]; intros [|c' a']; simpl; auto;
    intros Ha Ha' E; injection E as Ec E.
  - subst; tauto.
  - subst; tauto.
  - subst; f_equal; apply IH with (2 := fun H => Ha' (or_intror H)) (3 := E).
    tauto.
Qed.

(** The two records of the specification's remark, names swapped. *)
Definition swapped (r1 r2 : Game.t) : Prop :=
  trim (Players.X (Game.players r2)) = trim (Players.O (Game.players r1))
  /\ trim (Players.O (Game.players r2)) = trim (Players.X (Game.players r1)).

(** C2, as amended.  Every record is placed in the section whose title
    is the exact string [trimmedX + " vs " + trimmedO] of its trimmed
    names, the sections come in first-seen order of the distinct keys,
    and two records share a section exactly when their keys are the same
    string; two records with X and O swapped are therefore kept apart
    whenever those two strings differ, which is the case when the two
    trimmed names differ and contain no space. *)
Theorem groupGamesByPlayers_keyed_first_seen (games : list Game.t) :
  exists gs,
    Part000.groupGamesByPlayers games = Some gs
    /\ map Part000.title gs = first_seen (map pairing_key games)
    /\ (forall s, In s gs ->
          map Part000.numbered (Part000.data s)
          = members (Part000.title s) games)
    /\ (forall r1 r2, In r1 games -> In r2 games ->
          ((exists s, In s gs
                      /\ In (normalised r1) (map Part000.numbered (Part000.data s))
                      /\ In (normalised r2) (map Part000.numbered (Part000.data s)))
           <-> pairing_key r1 = pairing_key r2))
    /\ (forall r1 r2, swapped r1 r2 ->
          pairing_key r2
          = trim (Players.O (Game.players r1)) ++ js " vs "
            ++ trim (Players.X (Game.players r1))
          /\ (trim (Players.X (Game.players r1))
              <> trim (Players.O (Game.players r1)) ->
              ~ In 32%N (trim (Players.X (Game.players r1))) ->
              ~ In 32%N (trim (Players.O (Game.players r1))) ->
              pairing_key r1 <> pairing_key r2)).
Proof.
  destruct (groupGamesByPlayers_sections games) as (gs & Hgs & Hall).
  pose proof (Forall2_titles Hall) as Htitles.
  assert (Hdata : forall s, In s gs ->
            map Part000.numbered (Part000.data s)
            = members (Part000.title s) games).
  { intros s Hs; destruct (@Forall2_section_in _ _ _ s Hall Hs) as (_ & _ & Hd & _).
    exact Hd. }
  exists gs; repeat (split; [assumption|]); split.
  - intros r1 r2 H1 H2; split.
    + intros (s & Hs & Hr1 & Hr2).
      rewrite (Hdata s Hs) in Hr1, Hr2.
      apply in_members in Hr1, Hr2.
      destruct Hr1 as (g1 & _ & Hk1 & Hn1), Hr2 as (g2 & _ & Hk2 & Hn2).
      apply normalised_key in Hn1, Hn2; congruence.
    + intros Hk.
      assert (Hin : In (pairing_key r1) (map Part000.title gs)).
      { rewrite Htitles; apply first_seen_In, in_map; auto. }
      apply in_map_iff in Hin; destruct Hin as (s & Ht & Hs).
      exists s; rewrite (Hdata s Hs), Ht; repeat split; auto.
      * apply in_members; eauto.
      * apply in_members; exists r2; auto.
  - intros r1 r2 (HX & HO); split.
    + unfold pairing_key; now rewrite HX, HO.
    + intros Hne HnX HnO; unfold pairing_key; rewrite HX, HO.
      intros E; apply Hne.
      exact (app_space_inj _ _ _ _ HnX HnO E).
Qed.

Lemma groupGamesByPlayers_keyed_first_seen_witness :
  exists gs,
    Part000.groupGamesByPlayers three_games = Some gs
    /\ map Part000.title gs = [js "Ann vs Bo"; js "Bo vs Ann"].
Proof.
  destruct (groupGamesByPlayers_keyed_first_seen three_games)
    as (gs & Hgs & Ht & _).
  exists gs; split; [exact Hgs|exact Ht].
Defined.

(** The two names [a] and [a vs a], swapped between two records, give
    the same key, and the two records land in one section. *)
Definition swapped_r1 : Game.t :=
  Game.make [] (js "Draw") (Players.make (js "a") (js "a vs a")) 2.

Definition swapped_r2 : Game.t :=
  Game.make [] (js "Draw") (Players.make (js "a vs a") (js "a")) 1.

Lemma swapped_names_share_a_group :
  swapped swapped_r1 swapped_r2
  /\ trim (Players.X (Game.players swapped_r1))
     <> trim (Players.O (Game.players swapped_r1))
  /\ Part000.groupGamesByPlayers [swapped_r1; swapped_r2]
     = Some
         [ {| Part000.title := js "a vs a vs a";
              Part000.data :=
                [ Part000.mkNumbered swapped_r1 (js "Game 1");
                  Part000.mkNumbered swapped_r2 (js "Game 2") ];
              Part000.stats :=
                [ (js "a", 0); (js "a vs a", 0); (js "Draws", 2) ] |} ].
Proof.
  split; [split; reflexivity|]; split; [|vm_compute; reflexivity].
  vm_compute; discriminate.
Qed.

(** ** No record is lost or repeated *)

Lemma members_nil k : members k [] = [].
Proof. reflexivity. Qed.

Lemma flat_map_members_other g games ks :
  ~ In (pairing_key g) ks ->
  flat_map (fun k => members k (g :: games)) ks
  = flat_map (fun k => members k games) ks.
Proof.
  induction ks as [|k ks IH]; intros H; cbn [flat_map]; auto.
  rewrite IH by (intros Hin; apply H; now right); f_equal.
  unfold members; cbn [filter].
  replace (str_eqb (pairing_key g) k) with false; auto.
  symmetry; apply str_eqb_neq; intros E; apply H; now left.
Qed.

Lemma flat_map_members_perm ks games :
  NoDup ks ->
  (forall g, In g games -> In (pairing_key g) ks) ->
  Permutation (flat_map (fun k => members k games) ks) (map normalised games).
Proof.
  intros Hnd; induction games as [|g games IH]; intros Hks.
  - replace (flat_map (fun k => members k []) ks) with (@nil Game.t);
      [constructor|].
    clear; induction ks; simpl; auto.
  - destruct (in_split _ _ (Hks g (or_introl eq_refl))) as (ks1 & ks2 & E).
    assert (Hnot : ~ In (pairing_key g) ks1 /\ ~ In (pairing_key g) ks2).
    { rewrite E in Hnd; apply NoDup_remove_2 in Hnd.
      split; intros H; apply Hnd, in_or_app; auto. }
    destruct Hnot as [H1 H2].
    specialize (IH (fun g' H => Hks g' (or_intror H))).
    rewrite E in *; rewrite flat_map_app in *; simpl flat_map in *.
    rewrite !flat_map_members_other by assumption.
    unfold members at 2; simpl filter; rewrite str_eqb_refl.
    simpl; fold (members (pairing_key g) games).
    etransitivity; [symmetry; apply Permutation_middle|].
    now apply perm_skip.
Qed.

Lemma NoDup_map_inj_in {A B} (f : A -> B) (l : list A) a b :
  NoDup (map f l) -> In a l -> In b l -> f a = f b -> a = b.
Proof.
  induction l as [|x l IH]; simpl; [tauto|]; intros Hnd Ha Hb E.
  inversion Hnd as [|? ? Hx Hnd']; subst.
  destruct Ha as [->|Ha], Hb as [->|Hb]; auto.
  - elim Hx; rewrite E; now apply in_map.
  - elim Hx; rewrite <- E; now apply in_map.
Qed.

Lemma concat_data_members games gs :
  (forall s, In s gs ->
     map Part000.numbered (Part000.data s) = members (Part000.title s) games) ->
  map Part000.numbered (concat (map Part000.data gs))
  = flat_map (fun k => members k games) (map Part000.title gs).
Proof.
  induction gs as [|s gs IH]; simpl; auto; intros H.
  rewrite map_app, IH, (H s) by auto; reflexivity.
Qed.

(** C9.  The grouping returns, the titles of its sections are pairwise
    different, each section holds the input records of its key (names
    trimmed, numbered) in input order, every input record is found in one
    section and in no other, and all sections together hold the input
    records up to rearrangement: as many records as the input has. *)
Theorem groupGamesByPlayers_partition (games : list Game.t) :
  exists gs,
    Part000.groupGamesByPlayers games = Some gs
    /\ NoDup (map Part000.title gs)
    /\ (forall s, In s gs ->
          map Part000.numbered (Part000.data s)
          = map normalised
              (filter (fun g => str_eqb (pairing_key g) (Part000.title s)) games))
    /\ (forall r, In r games ->
          exists s,
            In s gs
            /\ In (normalised r) (map Part000.numbered (Part000.data s))
            /\ forall s', In s' gs ->
                 In (normalised r) (map Part000.numbered (Part000.data s')) ->
                 s' = s)
    /\ Permutation (map Part000.numbered (concat (map Part000.data gs)))
         (map normalised games)
    /\ length (concat (map Part000.data gs)) = length games.
Proof.
  destruct (groupGamesByPlayers_sections games) as (gs & Hgs & Hall).
  pose proof (Forall2_titles Hall) as Htitles.
  assert (Hdata : forall s, In s gs ->
            map Part000.numbered (Part000.data s)
            = members (Part000.title s) games).
  { intros s Hs; destruct (@Forall2_section_in _ _ _ s Hall Hs) as (_ & _ & Hd & _).
    exact Hd. }
  assert (Hnd : NoDup (map Part000.title gs))
    by (rewrite Htitles; apply first_seen_NoDup).
  assert (Hperm : Permutation
                    (map Part000.numbered (concat (map Part000.data gs)))
                    (map normalised games)).
  { rewrite (concat_data_members _ _ Hdata), Htitles.
    apply flat_map_members_perm; [apply first_seen_NoDup|].
    intros g Hg; apply first_seen_In, in_map; exact Hg. }
  exists gs; repeat (split; [assumption|]); split; [|split; [assumption|]].
  - intros r Hr.
    assert (Hin : In (pairing_key r) (map Part000.title gs))
      by (rewrite Htitles; apply first_seen_In, in_map; exact Hr).
    apply in_map_iff in Hin; destruct Hin as (s & Ht & Hs).
    exists s; split; [assumption|]; split.
    + rewrite (Hdata s Hs), Ht; apply in_members; eauto.
    + intros s' Hs' Hin'; rewrite (Hdata s' Hs') in Hin'.
      apply in_members in Hin'; destruct Hin' as (g & _ & Hk & Hn).
      apply normalised_key in Hn.
      apply (NoDup_map_inj_in Part000.title gs); auto; congruence.
  - apply Permutation_length in Hperm.
    now rewrite !length_map in Hperm.
Qed.

Lemma groupGamesByPlayers_partition_witness :
  exists gs,
    Part000.groupGamesByPlayers three_games = Some gs
    /\ length (concat (map Part000.data gs)) = 3.
Proof.
  destruct (groupGamesByPlayers_partition three_games)
    as (gs & Hgs & _ & _ & _ & _ & Hlen).
  exists gs; split; [exact Hgs|exact Hlen].
Defined.

(** ** The counters object *)

(** Wins that the object literal drops because a later property of the
    same name overwrites them. *)
Definition lost_wins (x o : jsstring) (xw ow : nat) : nat :=
  (if str_eqb x o || str_eqb x (js "Draws") then xw else 0)
  + (if str_eqb o (js "Draws") then ow else 0).

Definition stats_literal (x o : jsstring) (xw ow d : nat) : JSObject nat :=
  obj_set (js "Draws") d (obj_set o ow (obj_set x xw [])).

Lemma stats_literal_distinct x o xw ow d :
  x <> o -> x <> js "Draws" -> o <> js "Draws" ->
  stats_literal x o xw ow d = [(x, xw); (o, ow); (js "Draws", d)].
Proof.
  intros Hxo Hx Ho; unfold stats_literal; cbn [obj_set].
  replace (str_eqb o x) with false
    by (symmetry; apply str_eqb_neq; congruence).
  cbn [obj_set].
  replace (str_eqb (js "Draws") x) with false
    by (symmetry; apply str_eqb_neq; congruence).
  replace (str_eqb (js "Draws") o) with false
    by (symmetry; apply str_eqb_neq; congruence).
  reflexivity.
Qed.

Lemma stats_literal_sum x o xw ow d :
  sum_values (stats_literal x o xw ow d) + lost_wins x o xw ow = xw + ow + d.
Proof.
  unfold stats_literal, lost_wins; cbn [obj_set].
  rewrite (str_eqb_sym o x).
  destruct (str_eqb x o) eqn:Exo; cbn [obj_set orb].
  - apply str_eqb_eq in Exo; subst o.
    rewrite (str_eqb_sym (js "Draws") x).
    destruct (str_eqb x (js "Draws")); cbn; lia.
  - rewrite (str_eqb_sym (js "Draws") x), (str_eqb_sym (js "Draws") o).
    destruct (str_eqb x (js "Draws")) eqn:Ex; cbn [obj_set orb].
    + replace (str_eqb o (js "Draws")) with false; [cbn; lia|].
      symmetry; apply str_eqb_neq; apply str_eqb_eq in Ex.
      apply str_eqb_neq in Exo; congruence.
    + destruct (str_eqb o (js "Draws")); cbn; lia.
Qed.

Lemma stats_literal_collision x o xw ow d :
  ~ (x <> o /\ x <> js "Draws" /\ o <> js "Draws") ->
  length (stats_literal x o xw ow d) < 3.
Proof.
  intros H; unfold stats_literal; cbn [obj_set].
  rewrite (str_eqb_sym o x).
  destruct (str_eqb x o) eqn:Exo; cbn [obj_set].
  - destruct (str_eqb (js "Draws") x); cbn; lia.
  - rewrite (str_eqb_sym (js "Draws") x).
    destruct (str_eqb x (js "Draws")) eqn:Ex; cbn [obj_set]; [cbn; lia|].
    rewrite (str_eqb_sym (js "Draws") o).
    destruct (str_eqb o (js "Draws")) eqn:Eo; cbn [obj_set]; [cbn; lia|].
    apply str_eqb_neq in Exo, Ex, Eo; tauto.
Qed.

(** A game of a player against a namesake, won by the X side; and a
    game whose X player is called Draws. *)
Definition same_name_game : Game.t :=
  Game.make [] (js "A wins") (Players.make (js "A") (js "A")) 1.

Definition draws_name_game : Game.t :=
  Game.make [] (js "Draws wins") (Players.make (js "Draws") (js "Bo")) 1.

(** C10.  In every section the values of [stats] add up to the number
    of records less the wins dropped by colliding keys; when the first
    record's X name, O name and the word Draws are three different
    strings nothing is dropped, [stats] has three properties and the
    values add up to the number of records.  Otherwise [stats] has fewer
    than three properties, and the sum falls short of the number of
    records for the namesake game and for the player called Draws. *)
Theorem stats_sum_counts_records :
  (forall games,
     exists gs,
       Part000.groupGamesByPlayers games = Some gs
       /\ forall s, In s gs ->
            exists first rest,
              map Part000.numbered (Part000.data s) = first :: rest
              /\ sum_values (Part000.stats s)
                 + lost_wins (Players.X (Game.players first))
                     (Players.O (Game.players first))
                     (count x_won (first :: rest))
                     (count o_won (first :: rest))
                 = length (Part000.data s)
              /\ (Players.X (Game.players first) <> Players.O (Game.players first) ->
                  Players.X (Game.players first) <> js "Draws" ->
                  Players.O (Game.players first) <> js "Draws" ->
                  length (Part000.stats s) = 3
                  /\ sum_values (Part000.stats s) = length (Part000.data s))
              /\ (~ (Players.X (Game.players first) <> Players.O (Game.players first)
                     /\ Players.X (Game.players first) <> js "Draws"
                     /\ Players.O (Game.players first) <> js "Draws") ->
                  length (Part000.stats s) < 3))
  /\ (exists s,
        Part000.groupGamesByPlayers [same_name_game] = Some [s]
        /\ Part000.stats s = [(js "A", 0); (js "Draws", 0)]
        /\ sum_values (Part000.stats s) = 0
        /\ length (Part000.data s) = 1)
  /\ (exists s,
        Part000.groupGamesByPlayers [draws_name_game] = Some [s]
        /\ Part000.stats s = [(js "Draws", 0); (js "Bo", 0)]
        /\ sum_values (Part000.stats s) = 0
        /\ length (Part000.data s) = 1).
Proof.
  split; [|split; eexists; (split; [vm_compute; reflexivity|]);
            repeat split].
  intros games.
  destruct (groupGamesByPlayers_sections games) as (gs & Hgs & Hall).
  exists gs; split; [assumption|]; intros s Hs.
  destruct (@Forall2_section_in _ _ _ s Hall Hs)
    as (_ & _ & Hd & _ & first & rest & E & Hst).
  exists first, rest; rewrite Hd, E in *.
  fold (stats_literal (Players.X (Game.players first))
          (Players.O (Game.players first))
          (count x_won (first :: rest)) (count o_won (first :: rest))
          (count drawn (first :: rest))) in Hst.
  assert (Hlen : length (Part000.data s) = length (first :: rest))
    by (rewrite <- Hd; now rewrite length_map).
  assert (Hsum : sum_values (Part000.stats s)
                 + lost_wins (Players.X (Game.players first))
                     (Players.O (Game.players first))
                     (count x_won (first :: rest))
                     (count o_won (first :: rest))
                 = length (Part000.data s)).
  { rewrite Hst, stats_literal_sum, Hlen; apply outcome_partition. }
  split; [reflexivity|]; split; [assumption|]; split.
  - intros Hxo Hx Ho; rewrite Hst, stats_literal_distinct by assumption.
    split; [reflexivity|].
    rewrite <- (outcome_partition (first :: rest)) in Hlen.
    rewrite Hlen; unfold sum_values; simpl; lia.
  - intros Hcol; rewrite Hst; now apply stats_literal_collision.
Qed.

Lemma stats_sum_counts_records_witness :
  exists gs s,
    Part000.groupGamesByPlayers three_games = Some gs
    /\ In s gs
    /\ Part000.title s = js "Ann vs Bo"
    /\ length (Part000.stats s) = 3
    /\ sum_values (Part000.stats s) = length (Part000.data s).
Proof.
  destruct (proj1 stats_sum_counts_records three_games) as (gs & Hgs & Hall).
  assert (E : Part000.groupGamesByPlayers three_games = Some gs) by exact Hgs.
  vm_compute in E; injection E as E.
  destruct gs as [|s gs]; [discriminate E|].
  injection E as Es _.
  exists (s :: gs), s; split; [exact Hgs|]; split; [now left|].
  split; [now rewrite <- Es|].
  destruct (Hall s (or_introl eq_refl)) as (first & rest & Hd & _ & Hdist & _).
  rewrite <- Es in Hd; injection Hd as Hfirst _.
  apply Hdist; rewrite <- Hfirst; vm_compute; discriminate.
Defined.

(** The example of the specification: two Ann-against-Bo games and one
    Bo-against-Ann game. *)
Example groupGamesByPlayers_example :
  Part000.groupGamesByPlayers three_games
  = Some
      [ {| Part000.title := js "Ann vs Bo";
           Part000.data :=
             [ Part000.mkNumbered
                 (Game.make [] (js "Ann wins")
                    (Players.make (js "Ann") (js "Bo")) 30) (js "Game 1");
               Part000.mkNumbered
                 (Game.make [] (js "Draw")
                    (Players.make (js "Ann") (js "Bo")) 20) (js "Game 2") ];
           Part000.stats :=
             [ (js "Ann", 1); (js "Bo", 0); (js "Draws", 1) ] |};
        {| Part000.title := js "Bo vs Ann";
           Part000.data :=
             [ Part000.mkNumbered
                 (Game.make [] (js "Bo wins")
                    (Players.make (js "Bo") (js "Ann")) 10) (js "Game 1") ];
           Part000.stats :=
             [ (js "Bo", 1); (js "Ann", 0); (js "Draws", 0) ] |} ].
Proof. vm_compute; reflexivity. Qed.

(** With three different keys each counter can be read back from
    [stats] under its key: the X counter holds the records whose result
    is their own X name followed by wins, the O counter those, among the
    others, whose result is their O name followed by wins, and Draws the
    remaining ones. *)
Lemma stats_counters_distinct (games : list Game.t) :
  exists gs,
    Part000.groupGamesByPlayers games = Some gs
    /\ forall s, In s gs ->
         exists first rest,
           map Part000.numbered (Part000.data s) = first :: rest
           /\ (Players.X (Game.players first) <> Players.O (Game.players first) ->
               Players.X (Game.players first) <> js "Draws" ->
               Players.O (Game.players first) <> js "Draws" ->
               obj_get (Players.X (Game.players first)) (Part000.stats s)
               = Some (count x_won (first :: rest))
               /\ obj_get (Players.O (Game.players first)) (Part000.stats s)
                  = Some (count o_won (first :: rest))
               /\ obj_get (js "Draws") (Part000.stats s)
                  = Some (count drawn (first :: rest))).
Proof.
  destruct (groupGamesByPlayers_sections games) as (gs & Hgs & Hall).
  exists gs; split; [assumption|]; intros s Hs.
  destruct (@Forall2_section_in _ _ _ s Hall Hs)
    as (_ & _ & Hd & _ & first & rest & E & Hst).
  exists first, rest; rewrite Hd, E in *; split; [reflexivity|].
  intros Hxo Hx Ho.
  fold (stats_literal (Players.X (Game.players first))
          (Players.O (Game.players first))
          (count x_won (first :: rest)) (count o_won (first :: rest))
          (count drawn (first :: rest))) in Hst.
  rewrite Hst, stats_literal_distinct by assumption; cbn [obj_get].
  rewrite !str_eqb_refl.
  replace (str_eqb (Players.O (Game.players first))
             (Players.X (Game.players first))) with false
    by (symmetry; apply str_eqb_neq; congruence).
  replace (str_eqb (js "Draws") (Players.X (Game.players first))) with false
    by (symmetry; apply str_eqb_neq; congruence).
  replace (str_eqb (js "Draws") (Players.O (Game.players first))) with false
    by (symmetry; apply str_eqb_neq; congruence).
  auto.
Qed.

(** C3.  A game between two players both called A, won by the X side:
    its result is the record's X name followed by wins, yet the counter
    that [stats] holds under A is 0, the O counter having overwritten the
    X counter under the same key. *)
Theorem stats_namesake_win_not_counted :
  Game.result same_name_game
  = trim (Players.X (Game.players same_name_game)) ++ js " wins"
  /\ Part000.groupGamesByPlayers [same_name_game]
     = Some
         [ {| Part000.title := js "A vs A";
              Part000.data := [ Part000.mkNumbered same_name_game (js "Game 1") ];
              Part000.stats := [ (js "A", 0); (js "Draws", 0) ] |} ].
Proof. split; vm_compute; reflexivity. Qed.

(** ** Renaming a pairing *)

(** The title's duplicate check of [handleSaveEditTitle]. *)
Definition duplicate_of (gs : list Part000.HistorySection)
  (trimmedNew oldTitle : jsstring) : bool :=
  existsb (fun group =>
             str_eqb (Part000.title group) trimmedNew
             && negb (str_eqb (Part000.title group) oldTitle)) gs.

(** The records after a rename that passed the checks. *)
Definition renamed (games : list Game.t) (oldTitle xNameNew oNameNew : jsstring)
  : list Game.t :=
  map (fun game =>
         if Part000.eq_part (trim (Players.X (Game.players game)))
              (nth_error (split (js " vs ") oldTitle) 0)
            && Part000.eq_part (trim (Players.O (Game.players game)))
                 (nth_error (split (js " vs ") oldTitle) 1)
         then with_players game (trim xNameNew) (trim oNameNew)
         else game) games.

Definition update_failed : Alert := (js "Error", js "Failed to update titles").

Inductive rename_outcome (io_ok : bool) (h : Part000.History)
  (oldTitle : jsstring) : Part000.History * option Alert -> Prop :=
| rename_empty :
    trim (Part000.editedTitleText h) = [] ->
    rename_outcome io_ok h oldTitle (h, Some Part000.EmptyTitleError)
| rename_duplicate gs :
    trim (Part000.editedTitleText h) <> [] ->
    Part000.groupGamesByPlayers (Part000.games h) = Some gs ->
    duplicate_of gs (trim (Part000.editedTitleText h)) oldTitle = true ->
    rename_outcome io_ok h oldTitle (h, Some Part000.DuplicateTitleError)
| rename_malformed gs :
    trim (Part000.editedTitleText h) <> [] ->
    Part000.groupGamesByPlayers (Part000.games h) = Some gs ->
    duplicate_of gs (trim (Part000.editedTitleText h)) oldTitle = false ->
    Part000.part_truthy
      (nth_error (split (js " vs ") (trim (Part000.editedTitleText h))) 0)
    && Part000.part_truthy
         (nth_error (split (js " vs ") (trim (Part000.editedTitleText h))) 1)
    = false ->
    rename_outcome io_ok h oldTitle (h, Some Part000.MalformedTitleError)
| rename_done gs xNameNew oNameNew :
    trim (Part000.editedTitleText h) <> [] ->
    Part000.groupGamesByPlayers (Part000.games h) = Some gs ->
    duplicate_of gs (trim (Part000.editedTitleText h)) oldTitle = false ->
    nth_error (split (js " vs ") (trim (Part000.editedTitleText h))) 0
    = Some xNameNew ->
    nth_error (split (js " vs ") (trim (Part000.editedTitleText h))) 1
    = Some oNameNew ->
    xNameNew <> [] -> oNameNew <> [] ->
    rename_outcome io_ok h oldTitle
      (if io_ok
       then ({| Part000.games :=
                  renamed (Part000.games h) oldTitle xNameNew oNameNew;
                Part000.editingTitle := None;
                Part000.editedTitleText := [];
                Part000.stored :=
                  Some (renamed (Part000.games h) oldTitle xNameNew oNameNew) |},
             None)
       else (h, Some update_failed)).

(** The handler always ends, in one of the four ways. *)
Lemma handleSaveEditTitle_outcome io_ok h oldTitle :
  exists out,
    Part000.handleSaveEditTitle io_ok h oldTitle = Some out
    /\ rename_outcome io_ok h oldTitle out.
Proof.
  unfold Part000.handleSaveEditTitle.
  destruct (str_truthy (trim (Part000.editedTitleText h))) eqn:Et; cbn [negb].
  2: { eexists; split; [reflexivity|].
       apply rename_empty; now apply str_truthy_false. }
  assert (Hne : trim (Part000.editedTitleText h) <> []).
  { intros E; rewrite E in Et; discriminate. }
  destruct (groupGamesByPlayers_sections (Part000.games h)) as (gs & Hgs & _).
  rewrite Hgs.
  fold (duplicate_of gs (trim (Part000.editedTitleText h)) oldTitle).
  destruct (duplicate_of gs (trim (Part000.editedTitleText h)) oldTitle) eqn:Ed.
  { eexists; split; [reflexivity|]; eapply rename_duplicate; eauto. }
  cbv zeta.
  destruct (nth_error (split (js " vs ") (trim (Part000.editedTitleText h))) 0)
    as [x|] eqn:Ex;
    [|eexists; split; [reflexivity|]; eapply rename_malformed; eauto;
      now rewrite Ex].
  destruct (nth_error (split (js " vs ") (trim (Part000.editedTitleText h))) 1)
    as [o|] eqn:Eo;
    [|eexists; split; [cbn; now rewrite orb_true_r|];
      eapply rename_malformed; eauto; rewrite Ex, Eo; cbn;
      now rewrite andb_false_r].
  cbn [Part000.part_truthy].
  destruct (str_truthy x) eqn:Hx; cbn [negb orb];
    [|eexists; split; [reflexivity|]; eapply rename_malformed; eauto;
      rewrite Ex, Eo; cbn; now rewrite Hx].
  destruct (str_truthy o) eqn:Ho; cbn [negb];
    [|eexists; split; [reflexivity|]; eapply rename_malformed; eauto;
      rewrite Ex, Eo; cbn; now rewrite Hx, Ho].
  assert (Hxne : x <> []) by (intros ->; discriminate).
  assert (Hone : o <> []) by (intros ->; discriminate).
  pose proof (@rename_done io_ok h oldTitle gs x o Hne Hgs Ed Ex Eo Hxne Hone) as Hout.
  destruct io_ok; eexists; (split; [reflexivity|exact Hout]).
Qed.

Lemma section_title_space games gs s :
  Part000.groupGamesByPlayers games = Some gs -> In s gs ->
  In 32%N (Part000.title s).
Proof.
  intros Hgs Hs.
  destruct (groupGamesByPlayers_sections games) as (gs' & Hgs' & Hall).
  rewrite Hgs in Hgs'; injection Hgs' as <-.
  destruct (@Forall2_section_in _ _ _ s Hall Hs) as (Hin & _).
  apply first_seen_In, in_map_iff in Hin; destruct Hin as (g & <- & _).
  apply pairing_key_space.
Qed.

Lemma duplicate_of_true gs trimmedNew oldTitle :
  duplicate_of gs trimmedNew oldTitle = true <->
  exists s, In s gs /\ Part000.title s = trimmedNew
            /\ Part000.title s <> oldTitle.
Proof.
  unfold duplicate_of; rewrite existsb_exists; split.
  - intros (s & Hs & H); apply andb_true_iff in H; destruct H as [H1 H2].
    apply str_eqb_eq in H1; apply negb_true_iff, str_eqb_neq in H2; eauto.
  - intros (s & Hs & H1 & H2); exists s; split; auto.
    apply andb_true_iff; split;
      [now apply str_eqb_eq | now apply negb_true_iff, str_eqb_neq].
Qed.

Lemma alerts_distinct :
  Part000.EmptyTitleError <> Part000.DuplicateTitleError
  /\ Part000.EmptyTitleError <> Part000.MalformedTitleError
  /\ Part000.DuplicateTitleError <> Part000.MalformedTitleError
  /\ update_failed <> Part000.EmptyTitleError
  /\ update_failed <> Part000.DuplicateTitleError
  /\ update_failed <> Part000.MalformedTitleError.
Proof. repeat split; intros H; vm_compute in H; discriminate. Qed.

(** C6.  [handleSaveEditTitle] always ends.  It raises the empty-title
    alert exactly when the edited text is empty after trimming, the
    duplicate-title alert exactly when the trimmed text is the title of a
    section of the current history whose title is not [oldTitle]; and
    whenever one of the three validation alerts is raised, the history
    (records, editing state and stored item) is what it was. *)
Theorem handleSaveEditTitle_validation (io_ok : bool) (h : Part000.History)
  (oldTitle : jsstring) :
  exists out,
    Part000.handleSaveEditTitle io_ok h oldTitle = Some out
    /\ (snd out = Some Part000.EmptyTitleError
        <-> trim (Part000.editedTitleText h) = [])
    /\ (snd out = Some Part000.DuplicateTitleError
        <-> exists gs s,
              Part000.groupGamesByPlayers (Part000.games h) = Some gs
              /\ In s gs
              /\ Part000.title s = trim (Part000.editedTitleText h)
              /\ Part000.title s <> oldTitle)
    /\ (snd out = Some Part000.EmptyTitleError
        \/ snd out = Some Part000.DuplicateTitleError
        \/ snd out = Some Part000.MalformedTitleError ->
        fst out = h).
Proof.
  destruct (handleSaveEditTitle_outcome io_ok h oldTitle) as (out & Hout & Hcase).
  destruct alerts_distinct as (Hed & Hem & Hdm & Hfe & Hfd & Hfm).
  exists out; split; [assumption|].
  assert (Hdup : forall gs,
            Part000.groupGamesByPlayers (Part000.games h) = Some gs ->
            duplicate_of gs (trim (Part000.editedTitleText h)) oldTitle = false ->
            ~ exists gs' s,
                Part000.groupGamesByPlayers (Part000.games h) = Some gs'
                /\ In s gs'
                /\ Part000.title s = trim (Part000.editedTitleText h)
                /\ Part000.title s <> oldTitle).
  { intros gs Hgs Hd (gs' & s & Hgs' & Hs & Ht & Hn).
    rewrite Hgs in Hgs'; injection Hgs' as <-.
    assert (Htrue : duplicate_of gs (trim (Part000.editedTitleText h)) oldTitle
                    = true) by (apply duplicate_of_true; eauto).
    congruence. }
  inversion Hcase as [He|gs He Hgs Hd|gs He Hgs Hd Hp|gs x o He Hgs Hd Hx Ho Hxn Hon];
    subst out; cbn [fst snd].
  - split; [tauto|]; split; [|auto].
    split; [intros H; injection H as H; elim Hed; congruence|].
    intros (gs & s & Hgs & Hs & Ht & _).
    pose proof (@section_title_space _ _ s Hgs Hs) as Hsp.
    rewrite Ht, He in Hsp; destruct Hsp.
  - split; [split; [intros H; injection H as H; elim Hed; congruence|tauto]|].
    split; [|auto].
    split; [intros _|reflexivity].
    apply duplicate_of_true in Hd; destruct Hd as (s & Hs & Ht & Hn).
    exists gs, s; auto.
  - split; [split; [intros H; injection H as H; elim Hem; congruence|tauto]|].
    split; [|auto].
    split; [intros H; injection H as H; elim Hdm; congruence|].
    intros H; elim (Hdup gs Hgs Hd H).
  - destruct io_ok; cbn [fst snd].
    + split; [split; [discriminate|tauto]|].
      split; [split; [discriminate|intros H; elim (Hdup gs Hgs Hd H)]|].
      intros [H|[H|H]]; discriminate.
    + split; [split; [intros H; injection H as H; elim Hfe; congruence|tauto]|].
      split; [|auto].
      split; [intros H; injection H as H; elim Hfd; congruence|].
      intros H; elim (Hdup gs Hgs Hd H).
Qed.

Lemma eq_part_true x y : Part000.eq_part x y = true <-> Some x = y.
Proof.
  destruct y as [s|]; simpl; [rewrite str_eqb_eq|]; split; congruence.
Qed.

(** What the handler does when it ends without an alert: the new
    history has as many records as the old one, in the same places, and
    the stored item is that list; a record whose trimmed X name is the
    first piece of [oldTitle] split at [" vs "] and whose trimmed O name
    is the second piece has its players replaced by the trimmed first
    and second pieces of the new title, its other fields being kept;
    every other record is the record it was.  The pieces are those of
    the handler's own destructuring, which need not be the two names the
    title was built from. *)
Theorem handleSaveEditTitle_rewrites_matching (io_ok : bool)
  (h h' : Part000.History) (oldTitle : jsstring) :
  Part000.handleSaveEditTitle io_ok h oldTitle = Some (h', None) ->
  exists xNameNew oNameNew,
    nth_error (split (js " vs ") (trim (Part000.editedTitleText h))) 0
    = Some xNameNew
    /\ nth_error (split (js " vs ") (trim (Part000.editedTitleText h))) 1
       = Some oNameNew
    /\ length (Part000.games h') = length (Part000.games h)
    /\ Part000.stored h' = Some (Part000.games h')
    /\ forall i g,
         nth_error (Part000.games h) i = Some g ->
         exists g',
           nth_error (Part000.games h') i = Some g'
           /\ (Some (trim (Players.X (Game.players g)))
               = nth_error (split (js " vs ") oldTitle) 0
               /\ Some (trim (Players.O (Game.players g)))
                  = nth_error (split (js " vs ") oldTitle) 1 ->
               Game.players g' = Players.make (trim xNameNew) (trim oNameNew)
               /\ Game.board g' = Game.board g
               /\ Game.result g' = Game.result g
               /\ Game.timestamp g' = Game.timestamp g)
           /\ (~ (Some (trim (Players.X (Game.players g)))
                  = nth_error (split (js " vs ") oldTitle) 0
                  /\ Some (trim (Players.O (Game.players g)))
                     = nth_error (split (js " vs ") oldTitle) 1) ->
               g' = g).
Proof.
  intros Hdone.
  destruct (handleSaveEditTitle_outcome io_ok h oldTitle) as (out & Hout & Hcase).
  rewrite Hdone in Hout; injection Hout as <-.
  destruct io_ok;
    inversion Hcase as [| | |gs x o He Hgs Hd Hx Ho Hxn Hon Hh'].
  exists x, o; cbn [Part000.games Part000.stored].
  split; [assumption|]; split; [assumption|].
  split; [unfold renamed; apply length_map|]; split; [reflexivity|].
  intros i g Hg; unfold renamed.
  rewrite (map_nth_error _ _ _ Hg); eexists; split; [reflexivity|].
  destruct (Part000.eq_part (trim (Players.X (Game.players g)))
              (nth_error (split (js " vs ") oldTitle) 0)) eqn:EX;
    [destruct (Part000.eq_part (trim (Players.O (Game.players g)))
                 (nth_error (split (js " vs ") oldTitle) 1)) eqn:EO|];
    cbn [andb].
  - split; [intros _; repeat split|].
    apply eq_part_true in EX, EO; tauto.
  - split; [|reflexivity].
    intros [_ HO]; apply eq_part_true in HO; congruence.
  - split; [|reflexivity].
    intros [HX _]; apply eq_part_true in HX; congruence.
Qed.

Definition rename_before : Part000.History :=
  Part000.mkHistory three_games (Some (js "Ann vs Bo")) (js " Al vs Bea ")
    (Some three_games).

Definition rename_after : Part000.History :=
  Eval vm_compute in
    match Part000.handleSaveEditTitle true rename_before (js "Ann vs Bo") with
    | Some (h', _) => h'
    | None => rename_before
    end.

Lemma handleSaveEditTitle_rewrites_matching_witness :
  Part000.handleSaveEditTitle true rename_before (js "Ann vs Bo")
  = Some (rename_after, None)
  /\ map Game.players (Part000.games rename_after)
     = [ Players.make (js "Al") (js "Bea");
         Players.make (js "Al") (js "Bea");
         Players.make (js "Bo") (js "Ann") ]
  /\ length (Part000.games rename_after) = length (Part000.games rename_before).
Proof.
  assert (Hrun : Part000.handleSaveEditTitle true rename_before (js "Ann vs Bo")
                 = Some (rename_after, None)) by (vm_compute; reflexivity).
  split; [exact Hrun|]; split; [reflexivity|].
  destruct (handleSaveEditTitle_rewrites_matching true rename_before
              (js "Ann vs Bo") Hrun) as (x & o & _ & _ & Hlen & _).
  exact Hlen.
Defined.

(** Two records that share the X name [Ann]; the O name of the first
    contains the separator, so its section is titled
    [Ann vs Lee vs Bo], the section of the second [Ann vs Lee]. *)
Definition nested_name_games : list Game.t :=
  [ Game.make [] (js "Ann wins")
      (Players.make (js "Ann") (js "Lee vs Bo")) 20;
    Game.make [] (js "Draw") (Players.make (js "Ann") (js "Lee")) 10 ].

(** The history screen with the title of the first section being
    edited into [Al vs Bea]. *)
Definition nested_name_history : Part000.History :=
  Part000.mkHistory nested_name_games (Some (js "Ann vs Lee vs Bo"))
    (js "Al vs Bea") (Some nested_name_games).

(** C5.  The rename does not rewrite the records of the section whose
    title is [oldTitle] when a name contains the separator.  The history
    has the two sections [Ann vs Lee vs Bo] (the record of timestamp 20,
    names [Ann] and [Lee vs Bo]) and [Ann vs Lee] (the record of
    timestamp 10, names [Ann] and [Lee]).  Saving the first section's
    title as [Al vs Bea] ends without an alert, yet the record of that
    section keeps its players and the record of the other section
    becomes [Al] against [Bea]; the stored item is that list.  The
    rewritten record matches no reading of the title: in whichever way
    [Ann vs Lee vs Bo] is cut into an X part and an O part around one
    separator, the names [Ann] and [Lee] are not these two parts, while
    the names of the record left alone are such a cut and that record
    is the only one whose key is the title. *)
Theorem handleSaveEditTitle_rewrites_other_section :
  (exists gs,
     Part000.groupGamesByPlayers nested_name_games = Some gs
     /\ map Part000.title gs = [js "Ann vs Lee vs Bo"; js "Ann vs Lee"]
     /\ map (fun s =>
               map (fun n => Game.timestamp (Part000.numbered n))
                 (Part000.data s)) gs
        = [[20%Z]; [10%Z]])
  /\ map pairing_key nested_name_games
     = [js "Ann vs Lee vs Bo"; js "Ann vs Lee"]
  /\ js "Ann" ++ js " vs " ++ js "Lee vs Bo" = js "Ann vs Lee vs Bo"
  /\ (forall xPart oPart : jsstring,
        xPart ++ js " vs " ++ oPart = js "Ann vs Lee vs Bo" ->
        ~ (js "Ann" = xPart /\ js "Lee" = oPart))
  /\ exists h',
       Part000.handleSaveEditTitle true nested_name_history
         (js "Ann vs Lee vs Bo") = Some (h', None)
       /\ map Game.players (Part000.games h')
          = [ Players.make (js "Ann") (js "Lee vs Bo");
              Players.make (js "Al") (js "Bea") ]
       /\ map Game.timestamp (Part000.games h') = [20%Z; 10%Z]
       /\ Part000.stored h' = Some (Part000.games h').
Proof.
  split; [eexists; split; [vm_compute; reflexivity|split; reflexivity]|].
  split; [reflexivity|]; split; [reflexivity|]; split.
  - intros xPart oPart H [<- <-]; vm_compute in H; discriminate.
  - eexists; split; [vm_compute; reflexivity|repeat split].
Qed.

(** A title that splits into exactly two non-empty pieces passes the
    format check. *)
Lemma two_parts_pass_format_check (t a b : jsstring) :
  split (js " vs ") t = [a; b] -> a <> [] -> b <> [] ->
  Part000.part_truthy (nth_error (split (js " vs ") t) 0)
  && Part000.part_truthy (nth_error (split (js " vs ") t) 1) = true.
Proof.
  intros -> Ha Hb; destruct a, b; simpl; congruence.
Qed.

(** The format alert is raised exactly when the text is not empty, no
    other section has it as title, and one of the first two pieces of
    its split is missing or empty: further pieces are not looked at. *)
Lemma handleSaveEditTitle_format_check io_ok h oldTitle :
  exists out gs,
    Part000.handleSaveEditTitle io_ok h oldTitle = Some out
    /\ Part000.groupGamesByPlayers (Part000.games h) = Some gs
    /\ (snd out = Some Part000.MalformedTitleError <->
        trim (Part000.editedTitleText h) <> []
        /\ duplicate_of gs (trim (Part000.editedTitleText h)) oldTitle = false
        /\ Part000.part_truthy
             (nth_error (split (js " vs ") (trim (Part000.editedTitleText h))) 0)
           && Part000.part_truthy
                (nth_error (split (js " vs ") (trim (Part000.editedTitleText h))) 1)
           = false).
Proof.
  destruct (handleSaveEditTitle_outcome io_ok h oldTitle) as (out & Hout & Hcase).
  destruct (groupGamesByPlayers_sections (Part000.games h)) as (gs & Hgs & _).
  destruct alerts_distinct as (Hed & Hem & Hdm & Hfe & Hfd & Hfm).
  exists out, gs; split; [assumption|]; split; [assumption|].
  inversion Hcase as [He|gs' He Hgs' Hd|gs' He Hgs' Hd Hp|gs' x o He Hgs' Hd Hx Ho Hxn Hon];
    subst out; cbn [fst snd];
    try (rewrite Hgs in Hgs'; injection Hgs' as <-).
  - split; [intros H; injection H as H; elim Hem; congruence|tauto].
  - split; [intros H; injection H as H; elim Hdm; congruence|].
    intros (_ & Hd' & _); congruence.
  - tauto.
  - assert (Hok : Part000.part_truthy
                    (nth_error (split (js " vs ")
                                  (trim (Part000.editedTitleText h))) 0)
                  && Part000.part_truthy
                       (nth_error (split (js " vs ")
                                     (trim (Part000.editedTitleText h))) 1)
                  = true).
    { rewrite Hx, Ho; destruct x, o; simpl; congruence. }
    destruct io_ok; cbn [fst snd].
    + split; [discriminate|intros (_ & _ & H); congruence].
    + split; [intros H; injection H as H; elim Hfm; congruence|].
      intros (_ & _ & H); congruence.
Qed.

(** C4.  The title [A vs B vs C] splits into three pieces, and
    [handleSaveEditTitle] takes it without the format alert: the two
    Ann-against-Bo records become A against B, the third piece is
    dropped. *)
Theorem handleSaveEditTitle_accepts_three_parts :
  split (js " vs ") (js "A vs B vs C") = [js "A"; js "B"; js "C"]
  /\ exists h',
       Part000.handleSaveEditTitle true
         (Part000.mkHistory three_games (Some (js "Ann vs Bo"))
            (js "A vs B vs C") (Some three_games))
         (js "Ann vs Bo") = Some (h', None)
       /\ map Game.players (Part000.games h')
          = [ Players.make (js "A") (js "B");
              Players.make (js "A") (js "B");
              Players.make (js "Bo") (js "Ann") ].
Proof.
  split; [reflexivity|].
  eexists; split; [vm_compute; reflexivity|reflexivity].
Qed.

(** The title without the separator of the specification's example is
    refused. *)
Example handleSaveEditTitle_refuses_AnnBo :
  Part000.handleSaveEditTitle true
    (Part000.mkHistory three_games (Some (js "Ann vs Bo")) (js "AnnBo")
       (Some three_games))
    (js "Ann vs Bo")
  = Some (Part000.mkHistory three_games (Some (js "Ann vs Bo")) (js "AnnBo")
            (Some three_games),
          Some Part000.MalformedTitleError).
Proof. vm_compute; reflexivity. Qed.

(** ** Saving a finished game *)

(** In the screen file with the grouped history, the record that
    [saveGame] puts in front of the store carries the trimmed names:
    each name as entered is white space, the stored name, white space,
    and the stored name neither starts nor ends with white space. *)
Lemma saveGame_stores_trimmed_names (route : Part000.PlayerRoute) (now : Z)
  (store : Storage) (boardState : squares) (result : jsstring) :
  exists game,
    Part000.saveGame route now true store boardState result
    = (Some (game :: parse_games store), None)
    /\ Game.players game
       = Players.make (trim (Part000.playerX route)) (trim (Part000.playerO route))
    /\ Game.board game = boardState
    /\ Game.result game = result
    /\ Game.timestamp game = now
    /\ forall name stored_name,
         (name = Part000.playerX route /\ stored_name = Players.X (Game.players game))
         \/ (name = Part000.playerO route /\ stored_name = Players.O (Game.players game)) ->
         (exists pre suf,
            name = pre ++ stored_name ++ suf
            /\ forallb isWhiteSpace pre = true
            /\ forallb isWhiteSpace suf = true)
         /\ (forall c r, stored_name = c :: r -> isWhiteSpace c = false)
         /\ (forall r c, stored_name = r ++ [c] -> isWhiteSpace c = false).
Proof.
  eexists; split; [reflexivity|]; cbn.
  repeat (split; [reflexivity|]).
  intros name stored_name [[-> ->]|[-> ->]];
    (split; [apply trim_split|split; [apply trim_head|apply trim_last]]).
Qed.

(** [trim] handles white space outside ASCII as well: a no-break space
    and an ideographic space around a name of two Cyrillic letters. *)
Example trim_unicode :
  trim [160%N; 1040%N; 1103%N; 12288%N] = [1040%N; 1103%N].
Proof. reflexivity. Qed.

(** C8.  In [index.tsx] the home screen passes the names on as typed
    once they are not blank, and [saveGame] stores them as they are: the
    names [ Ann] and [Bo ] are stored with their spaces, while the screen
    file with the grouped history stores [Ann] and [Bo] for the same
    input. *)
Theorem IndexTsx_saveGame_stores_untrimmed_names :
  IndexTsx.startGame (js " Ann") (js "Bo ")
  = inr (IndexTsx.mkRoute (js " Ann") (js "Bo "))
  /\ (forall now store boardState result,
        IndexTsx.saveGame (IndexTsx.mkRoute (js " Ann") (js "Bo ")) now true
          store boardState result
        = (Some (Game.make boardState result
                   (Players.make (js " Ann") (js "Bo ")) now
                 :: parse_games store), None))
  /\ trim (js " Ann") = js "Ann"
  /\ trim (js "Bo ") = js "Bo"
  /\ (forall now store boardState result,
        Part000.saveGame
          (Part000.mkRoute (js " Ann") (js "Bo ") Part000.SymX) now true
          store boardState result
        = (Some (Game.make boardState result
                   (Players.make (js "Ann") (js "Bo")) now
                 :: parse_games store), None)).
Proof. repeat split. Qed.

(** ** Playing a game *)

Lemma array_set_split b i v b' :
  GameScreen.array_set b i v = Some b' ->
  exists pre old post,
    b = pre ++ old :: post /\ b' = pre ++ v :: post /\ length pre = i.
Proof.
  revert i b'; induction b as [|c b IH]; intros [|i] b'; simpl;
    try discriminate.
  - intros H; injection H as <-; now exists [], c, b.
  - destruct (GameScreen.array_set b i v) as [b''|] eqn:E; [|discriminate].
    intros H; injection H as <-.
    destruct (IH _ _ E) as (pre & old & post & -> & -> & <-).
    now exists (c :: pre), old, post.
Qed.

Lemma array_set_in_range b i v :
  i < length b -> exists b', GameScreen.array_set b i v = Some b'.
Proof.
  revert i; induction b as [|c b IH]; intros [|i] Hi; simpl in *;
    try lia; eauto.
  destruct (IH i) as (b' & ->); [lia|eauto].
Qed.

Lemma nth_error_middle {A} (pre post : list A) (x : A) :
  nth_error (pre ++ x :: post) (length pre) = Some x.
Proof. induction pre; simpl; auto. Qed.

Lemma nth_error_other {A} (pre post : list A) (x y : A) j :
  j <> length pre ->
  nth_error (pre ++ x :: post) j = nth_error (pre ++ y :: post) j.
Proof.
  revert j; induction pre as [|a pre IH]; intros [|j] H; simpl in *;
    auto; try congruence.
Qed.

(** On a board of empty, X and O cells a result of the scan names a
    line of the list, completed with the symbol returned; no result
    means no line is completed. *)
Lemma completed_somewhere b ls :
  (exists l s, In l ls /\ completed b l s)
  \/ (forall l s, In l ls -> ~ completed b l s).
Proof.
  induction ls as [|p ls [IH|IH]].
  - right; intros l s [].
  - left; destruct IH as (l & s & Hl & Hc); exists l, s; split; auto.
    now right.
  - destruct (completed_decide b p) as [[s Hp]|Hp].
    + left; exists p, s; split; auto; now left.
    + right; intros l s [<-|Hl]; auto.
Qed.

Lemma calculateWinner_sound b s t :
  valid_board b -> calculateWinner b = Some (s, t) ->
  exists l, In l lines /\ t = triple l /\ completed b l s.
Proof.
  intros Hb H; unfold calculateWinner in H.
  destruct (completed_somewhere b lines) as [Hex|Hno].
  - apply first_completed in Hex.
    destruct Hex as (pre & l & post & s0 & E & Hl & Hpre).
    rewrite E, (@scan_lines_first b Hb pre l post s0 Hl Hpre) in H.
    injection H as <- <-; exists l; repeat split; auto.
    rewrite E; apply in_or_app; right; now left.
  - rewrite (@scan_lines_none b lines Hno) in H; discriminate.
Qed.

Lemma calculateWinner_none b :
  valid_board b -> calculateWinner b = None ->
  forall l s, In l lines -> ~ completed b l s.
Proof.
  intros Hb H l s Hl Hc; unfold calculateWinner in H.
  assert (Hex : exists l s, In l lines /\ completed b l s) by eauto.
  apply first_completed in Hex.
  destruct Hex as (pre & l0 & post & s0 & E & Hl0 & Hpre).
  rewrite E, (@scan_lines_first b Hb pre l0 post s0 Hl0 Hpre) in H; discriminate.
Qed.

(** How many cells hold the symbol [s]. *)
Definition count_symbol (s : jsstring) (b : squares) : nat :=
  length (filter (fun c => match c with
                           | Some t => str_eqb t s
                           | None => false
                           end) b).

(** The symbols alternate from the first mover on: the first mover has
    as many cells as the other when it is to move, one more otherwise. *)
Definition in_turn (xFirst : bool) (st : GameScreen.State) : Prop :=
  let nX := count_symbol (js "X") (GameScreen.board st) in
  let nO := count_symbol (js "O") (GameScreen.board st) in
  if xFirst
  then (GameScreen.xIsNext st = true /\ nX = nO)
       \/ (GameScreen.xIsNext st = false /\ nX = nO + 1)
  else (GameScreen.xIsNext st = false /\ nO = nX)
       \/ (GameScreen.xIsNext st = true /\ nO = nX + 1).

(** What a board says about the end of the game: the winner's name and
    the winning line, Draw on a full board without one, nothing yet
    otherwise. *)
Definition outcome (playerX playerO : jsstring) (b : squares)
  : option jsstring * option (list nat) :=
  match calculateWinner b with
  | Some (s, combo) =>
      (Some (if str_eqb s (js "X") then playerX else playerO), Some combo)
  | None =>
      (if GameScreen.every_Boolean b then Some (js "Draw") else None, None)
  end.

Definition game_inv (playerX playerO : jsstring) (xFirst : bool)
  (st : GameScreen.State) : Prop :=
  valid_board (GameScreen.board st)
  /\ in_turn xFirst st
  /\ (GameScreen.winner st, GameScreen.winningCombo st)
     = outcome playerX playerO (GameScreen.board st).

Lemma count_symbol_app s b1 b2 :
  count_symbol s (b1 ++ b2) = count_symbol s b1 + count_symbol s b2.
Proof. unfold count_symbol; now rewrite filter_app, length_app. Qed.

Lemma count_symbol_set s pre post (v : cell) :
  count_symbol s (pre ++ v :: post)
  = count_symbol s (pre ++ None :: post)
    + match v with Some t => if str_eqb t s then 1 else 0 | None => 0 end.
Proof.
  rewrite !count_symbol_app.
  change (v :: post) with ([v] ++ post).
  change (None :: post) with ([@None jsstring] ++ post).
  rewrite !count_symbol_app; unfold count_symbol at 2 5; simpl.
  destruct v as [t|]; simpl; [destruct (str_eqb t s); simpl|]; lia.
Qed.

Lemma valid_falsy_is_empty (c : cell) :
  valid_cell c -> GameScreen.cell_truthy (Some c) = false -> c = None.
Proof.
  unfold valid_cell; intros [-> | [-> | ->]]; simpl; auto; discriminate.
Qed.

Section GameProperties.

Variables playerX playerO : jsstring.
Variable saveGame :
  Z -> bool -> Storage -> squares -> jsstring -> Storage * option Alert.
Variable xFirst : bool.

Hypothesis HX : str_truthy playerX = true.
Hypothesis HO : str_truthy playerO = true.

Let handlePress := GameScreen.handlePress playerX playerO saveGame.
Let inv := game_inv playerX playerO xFirst.

Lemma outcome_winner_truthy b w :
  fst (outcome playerX playerO b) = Some w -> str_truthy w = true.
Proof.
  unfold outcome; destruct (calculateWinner b) as [[s combo]|]; simpl.
  - intros H; injection H as <-; now destruct (str_eqb s (js "X")).
  - destruct (GameScreen.every_Boolean b); [|discriminate].
    intros H; injection H as <-; reflexivity.
Qed.

(** While [winner] is falsy the game is still on. *)
Lemma game_in_progress st :
  inv st -> GameScreen.winner_truthy (GameScreen.winner st) = false ->
  GameScreen.winner st = None /\ GameScreen.winningCombo st = None
  /\ calculateWinner (GameScreen.board st) = None
  /\ GameScreen.every_Boolean (GameScreen.board st) = false.
Proof.
  intros (_ & _ & Hout) Hw.
  assert (Hnone : GameScreen.winner st = None).
  { destruct (GameScreen.winner st) as [w|] eqn:E; auto.
    assert (Hf : fst (outcome playerX playerO (GameScreen.board st)) = Some w)
      by now rewrite <- Hout.
    apply outcome_winner_truthy in Hf; simpl in Hw; congruence. }
  rewrite Hnone in Hout; unfold outcome in Hout.
  destruct (calculateWinner (GameScreen.board st)) as [[s combo]|];
    [discriminate|].
  destruct (GameScreen.every_Boolean (GameScreen.board st)); [discriminate|].
  injection Hout as Hc; auto.
Qed.

(** What a press that is not ignored does to the board. *)
Lemma press_places_symbol st store now io_ok index st' store' al :
  inv st ->
  handlePress now io_ok st store index = Some (st', store', al) ->
  (st' = st /\ store' = store /\ al = []
   /\ GameScreen.cell_truthy (nth_error (GameScreen.board st) index)
      || GameScreen.winner_truthy (GameScreen.winner st) = true)
  \/ (exists pre post,
        GameScreen.board st = pre ++ None :: post
        /\ length pre = index
        /\ GameScreen.board st'
           = pre ++ Some (if GameScreen.xIsNext st then js "X" else js "O")
               :: post
        /\ GameScreen.xIsNext st' = negb (GameScreen.xIsNext st)
        /\ GameScreen.winner_truthy (GameScreen.winner st) = false
        /\ (GameScreen.winner st', GameScreen.winningCombo st')
           = outcome playerX playerO (GameScreen.board st')).
Proof.
  intros Hinv; unfold handlePress, GameScreen.handlePress.
  destruct (GameScreen.cell_truthy (nth_error (GameScreen.board st) index)
            || GameScreen.winner_truthy (GameScreen.winner st)) eqn:Hguard.
  { intros H; injection H as <- <- <-; left; auto. }
  apply orb_false_iff in Hguard; destruct Hguard as [Hcell Hw].
  destruct (game_in_progress Hinv Hw) as (Hwn & Hcn & _ & _).
  destruct (GameScreen.array_set (GameScreen.board st) index
              (Some (if GameScreen.xIsNext st then js "X" else js "O")))
    as [newBoard|] eqn:Eset; [|discriminate].
  destruct (array_set_split _ _ _ Eset) as (pre & old & post & Eb & En & Hlen).
  assert (Hold : old = None).
  { destruct Hinv as ((_ & Hcells) & _).
    rewrite Eb in Hcells, Hcell; rewrite <- Hlen, nth_error_middle in Hcell.
    apply valid_falsy_is_empty; auto.
    rewrite Forall_forall in Hcells; apply Hcells, in_or_app; right; now left. }
  subst old; cbv zeta.
  assert (Hfin : forall st'',
            GameScreen.board st'' = newBoard ->
            GameScreen.xIsNext st'' = negb (GameScreen.xIsNext st) ->
            (GameScreen.winner st'', GameScreen.winningCombo st'')
            = outcome playerX playerO newBoard ->
            exists pre0 post0,
              GameScreen.board st = pre0 ++ None :: post0
              /\ length pre0 = index
              /\ GameScreen.board st''
                 = pre0 ++ Some (if GameScreen.xIsNext st then js "X" else js "O")
                     :: post0
              /\ GameScreen.xIsNext st'' = negb (GameScreen.xIsNext st)
              /\ GameScreen.winner_truthy (GameScreen.winner st) = false
              /\ (GameScreen.winner st'', GameScreen.winningCombo st'')
                 = outcome playerX playerO (GameScreen.board st'')).
  { intros st'' Hb' Hx' Ho'; exists pre, post; rewrite Hb'; auto 10. }
  unfold outcome in Hfin.
  destruct (calculateWinner newBoard) as [[winSymbol combo]|] eqn:Ecalc.
  - match goal with
    | |- context [saveGame ?a ?b ?c ?d ?e] =>
        destruct (saveGame a b c d e) as [s' failed]
    end.
    intros H; injection H as <- _ _; right; apply Hfin; reflexivity.
  - destruct (GameScreen.every_Boolean newBoard) eqn:Efull.
    + match goal with
      | |- context [saveGame ?a ?b ?c ?d ?e] =>
          destruct (saveGame a b c d e) as [s' failed]
      end.
      intros H; injection H as <- _ _; right; apply Hfin; simpl; congruence.
    + intros H; injection H as <- _ _; right; apply Hfin; simpl; congruence.
Qed.

Lemma handlePress_inv st store now io_ok index st' store' al :
  inv st ->
  handlePress now io_ok st store index = Some (st', store', al) ->
  inv st'.
Proof.
  intros Hinv H.
  destruct (@press_places_symbol st store now io_ok index st' store' al Hinv H)
    as [(-> & _)|(pre & post & Eb & Hlen & Eb' & Hx & _ & Hout)]; auto.
  destruct Hinv as ((Hl & Hcells) & Hturn & _).
  split; [|split; [|exact Hout]].
  - rewrite Eb' ; rewrite Eb in Hl, Hcells; split.
    + rewrite length_app in *; simpl in *; lia.
    + apply Forall_app in Hcells; destruct Hcells as [H1 H2].
      apply Forall_app; split; auto.
      inversion H2; subst; constructor; auto.
      unfold valid_cell; destruct (GameScreen.xIsNext st); auto.
  - unfold in_turn in *; rewrite Eb', Hx; rewrite Eb in Hturn.
    rewrite (count_symbol_set (js "X")), (count_symbol_set (js "O")).
    cbv zeta in *; revert Hturn.
    destruct xFirst, (GameScreen.xIsNext st); cbv iota;
      change (str_eqb (js "X") (js "X")) with true;
      change (str_eqb (js "O") (js "O")) with true;
      change (str_eqb (js "X") (js "O")) with false;
      change (str_eqb (js "O") (js "X")) with false;
      cbv iota; cbn [negb];
      intros [[Hn Hc]|[Hn Hc]]; try discriminate;
      [right|left|left|right]; split; auto;
      unfold squares, cell, jsstring in *; lia.
Qed.

Lemma start_inv : inv (GameScreen.start xFirst).
Proof.
  split; [|split].
  - split; [reflexivity|].
    simpl; repeat constructor; unfold valid_cell; auto.
  - unfold in_turn; simpl; destruct xFirst; auto.
  - reflexivity.
Qed.

Lemma run_inv es cfg cfg' :
  inv (fst cfg) ->
  GameScreen.run playerX playerO saveGame xFirst cfg es = Some cfg' ->
  inv (fst cfg').
Proof.
  revert cfg; induction es as [|e es IH]; intros cfg Hinv; simpl.
  - intros H; injection H as <-; exact Hinv.
  - destruct e as [index now io_ok|]; simpl.
    + destruct (GameScreen.handlePress playerX playerO saveGame now io_ok
                  (fst cfg) (snd cfg) index) as [[[st store] al]|] eqn:E;
        [|discriminate].
      apply IH; simpl; eapply handlePress_inv; eauto.
    + apply IH; exact start_inv.
Qed.

End GameProperties.

(** The result text that goes with a finished board, if it is one. *)
Definition result_of (playerX playerO : jsstring) (b : squares)
  : option jsstring :=
  match calculateWinner b with
  | Some (s, _) =>
      Some ((if str_eqb s (js "X") then playerX else playerO) ++ js " wins")
  | None => if GameScreen.every_Boolean b then Some (js "Draw") else None
  end.

(** A press on one of the nine cells. *)
Definition on_board (e : GameScreen.event) : Prop :=
  match e with
  | GameScreen.Press index _ _ => index < 9
  | GameScreen.Restart => True
  end.

Definition is_press (e : GameScreen.event) : Prop :=
  match e with
  | GameScreen.Press _ _ _ => True
  | GameScreen.Restart => False
  end.

Section GameStore.

Variables playerX playerO : jsstring.
Variable saveGame :
  Z -> bool -> Storage -> squares -> jsstring -> Storage * option Alert.
Variable xFirst : bool.

Hypothesis HX : str_truthy playerX = true.
Hypothesis HO : str_truthy playerO = true.

(** The record [saveGame] builds, and the alert of its [catch]. *)
Variable record : squares -> jsstring -> Z -> Game.t.
Variable failure : Alert.

Hypothesis Hsave : forall now io_ok store b r,
  saveGame now io_ok store b r
  = if io_ok then (Some (record b r now :: parse_games store), None)
    else (store, Some failure).

Let handlePress := GameScreen.handlePress playerX playerO saveGame.
Let inv := game_inv playerX playerO xFirst.

Definition finished (g : Game.t) : Prop :=
  exists b r now,
    g = record b r now /\ valid_board b
    /\ result_of playerX playerO b = Some r.

(** A press stores a record exactly when it ends the game and the
    storage calls succeed; the record is the one of the new board. *)
Lemma handlePress_store st store now io_ok index st' store' al :
  inv st ->
  handlePress now io_ok st store index = Some (st', store', al) ->
  (store' = store
   /\ (io_ok = false
       \/ GameScreen.winner_truthy (GameScreen.winner st') = false
       \/ st' = st))
  \/ (exists r,
        store' = Some (record (GameScreen.board st') r now :: parse_games store)
        /\ result_of playerX playerO (GameScreen.board st') = Some r
        /\ io_ok = true
        /\ GameScreen.winner_truthy (GameScreen.winner st) = false).
Proof.
  intros Hinv; unfold handlePress, GameScreen.handlePress, result_of.
  destruct (GameScreen.cell_truthy (nth_error (GameScreen.board st) index)
            || GameScreen.winner_truthy (GameScreen.winner st)) eqn:Hguard.
  { intros H; injection H as <- <- _; left; auto. }
  apply orb_false_iff in Hguard; destruct Hguard as [_ Hw].
  destruct (game_in_progress HX HO Hinv Hw) as (Hwn & _).
  destruct (GameScreen.array_set (GameScreen.board st) index
              (Some (if GameScreen.xIsNext st then js "X" else js "O")))
    as [newBoard|]; [|discriminate].
  cbv zeta.
  destruct (calculateWinner newBoard) as [[s combo]|] eqn:Ecalc.
  - rewrite Hsave; destruct io_ok; intros H; injection H as <- <- _;
      cbn [GameScreen.board GameScreen.winner]; [right|left; auto].
    rewrite Ecalc; eauto.
  - destruct (GameScreen.every_Boolean newBoard) eqn:Efull.
    + rewrite Hsave; destruct io_ok; intros H; injection H as <- <- _;
        cbn [GameScreen.board GameScreen.winner]; [right|left; auto].
      rewrite Ecalc, Efull; eauto.
    + intros H; injection H as <- <- _; left; split; [reflexivity|].
      right; left; cbn [GameScreen.winner]; now rewrite Hwn.
Qed.

(** Over a run, records are only added in front of the stored list, all
    of them finished games; between two presses of Restart at most one
    is added, and none once the game is over. *)
Lemma run_store es cfg cfg' :
  inv (fst cfg) ->
  GameScreen.run playerX playerO saveGame xFirst cfg es = Some cfg' ->
  exists added,
    parse_games (snd cfg') = added ++ parse_games (snd cfg)
    /\ Forall finished added
    /\ (Forall is_press es ->
        length added
        <= if GameScreen.winner_truthy (GameScreen.winner (fst cfg))
           then 0 else 1).
Proof.
  revert cfg; induction es as [|e es IH]; intros [st store] Hinv; simpl.
  - intros H; injection H as <-; exists []; repeat split; auto; simpl.
    intros _; destruct (GameScreen.winner_truthy _); lia.
  - destruct e as [index now io_ok|]; simpl.
    + destruct (GameScreen.handlePress playerX playerO saveGame now io_ok
                  st store index) as [[[st1 store1] al]|] eqn:E;
        [|discriminate].
      intros Hrun.
      pose proof (@handlePress_inv playerX playerO saveGame xFirst HX HO
                    st store now io_ok index st1 store1 al Hinv E) as Hinv1.
      destruct (IH (st1, store1) Hinv1 Hrun) as (added & Hp & Hfin & Hlen).
      simpl in Hp, Hlen.
      destruct (@handlePress_store st store now io_ok index st1 store1 al
                  Hinv E) as [(-> & Hsame)|(r & -> & Hr & Hio & Hw)].
      * exists added; repeat split; auto.
        intros Hall; inversion Hall as [|? ? _ Hall']; subst.
        specialize (Hlen Hall').
        destruct (@press_places_symbol playerX playerO saveGame xFirst
                    HX HO st store now io_ok index st1 store al Hinv E)
          as [(Hst & _)|(_ & _ & _ & _ & _ & _ & Hw & _)].
        -- now rewrite <- Hst.
        -- rewrite Hw; destruct (GameScreen.winner_truthy _); lia.
      * simpl in Hp.
        exists (added ++ [record (GameScreen.board st1) r now]).
        rewrite <- app_assoc; simpl; split; [exact Hp|]; split.
        -- apply Forall_app; split; auto; constructor; auto.
           exists (GameScreen.board st1), r, now.
           split; [reflexivity|]; split; [apply Hinv1|exact Hr].
        -- intros Hall; inversion Hall as [|? ? _ Hall']; subst.
           specialize (Hlen Hall'); rewrite Hw, length_app; simpl.
           assert (Ht : GameScreen.winner_truthy (GameScreen.winner st1) = true).
           { destruct Hinv1 as (_ & _ & Hout).
             unfold result_of in Hr; unfold outcome in Hout.
             destruct (calculateWinner (GameScreen.board st1)) as [[s c]|].
             - injection Hout as -> _; simpl.
               now destruct (str_eqb s (js "X")).
             - destruct (GameScreen.every_Boolean (GameScreen.board st1));
                 [|discriminate].
               injection Hout as -> _; reflexivity. }
           rewrite Ht in Hlen; lia.
    + intros Hrun.
      destruct (IH (GameScreen.start xFirst, store)
                  (start_inv playerX playerO xFirst) Hrun)
        as (added & Hp & Hfin & _).
      exists added; repeat split; auto.
      intros Hall; inversion Hall as [|? ? Hf _]; destruct Hf.
Qed.

End GameStore.

(** Presses on the nine cells are always handled. *)
Lemma handlePress_on_board playerX playerO saveGame now io_ok st store index :
  index < length (GameScreen.board st) ->
  exists out,
    GameScreen.handlePress playerX playerO saveGame now io_ok st store index
    = Some out.
Proof.
  intros Hi; unfold GameScreen.handlePress.
  destruct (GameScreen.cell_truthy _ || GameScreen.winner_truthy _); eauto.
  destruct (@array_set_in_range (GameScreen.board st) index
              (Some (if GameScreen.xIsNext st then js "X" else js "O")) Hi)
    as (newBoard & ->).
  destruct (calculateWinner newBoard) as [[s combo]|]; cbv zeta.
  - destruct (saveGame _ _ _ _ _); eauto.
  - destruct (GameScreen.every_Boolean newBoard); eauto.
    destruct (saveGame _ _ _ _ _); eauto.
Qed.

Lemma run_on_board playerX playerO saveGame xFirst es cfg :
  str_truthy playerX = true -> str_truthy playerO = true ->
  game_inv playerX playerO xFirst (fst cfg) -> Forall on_board es ->
  exists cfg',
    GameScreen.run playerX playerO saveGame xFirst cfg es = Some cfg'.
Proof.
  intros HX HO; revert cfg.
  induction es as [|e es IH]; intros [st store] Hinv Hall; simpl.
  - eauto.
  - inversion Hall as [|? ? He Hall']; subst.
    destruct e as [index now io_ok|]; simpl in *.
    + destruct (@handlePress_on_board playerX playerO saveGame now io_ok
                  st store index) as ([[st1 store1] al] & E).
      { destruct Hinv as ((-> & _) & _); exact He. }
      rewrite E; apply IH; auto; simpl.
      eapply handlePress_inv; eauto.
    + apply IH; auto; apply start_inv.
Qed.

(** A game of five presses: X takes the top row. *)
Definition demo_presses : list GameScreen.event :=
  [ GameScreen.Press 0 1 true; GameScreen.Press 3 2 true;
    GameScreen.Press 1 3 true; GameScreen.Press 4 4 true;
    GameScreen.Press 2 5 true ].

Definition demo_route : Part000.PlayerRoute :=
  Part000.mkRoute (js "Ann") (js "Bo") Part000.SymX.

Definition demo_end : GameScreen.State * Storage :=
  Eval vm_compute in
    match Part000.run demo_route (GameScreen.start true, None) demo_presses with
    | Some cfg => cfg
    | None => (GameScreen.start true, None)
    end.

Lemma demo_run :
  GameScreen.run (js "Ann") (js "Bo") (Part000.saveGame demo_route) true
    (GameScreen.start true, None) demo_presses = Some demo_end.
Proof. vm_compute; reflexivity. Qed.

(** X2.  From the start of a game, through any presses and restarts,
    the board keeps nine cells, each empty, X or O; the two symbols
    alternate beginning with the first mover; and the winner and the
    highlighted line held in the state are always the ones the board
    itself shows: the name of the owner of the first completed line,
    Draw on a full board without one, nothing otherwise.  Presses on the
    nine cells never fail. *)
Theorem game_state_consistent (playerX playerO : jsstring)
  (saveGame : Z -> bool -> Storage -> squares -> jsstring
              -> Storage * option Alert)
  (xFirst : bool) (store0 : Storage) (es : list GameScreen.event) :
  str_truthy playerX = true -> str_truthy playerO = true ->
  (Forall on_board es ->
   exists cfg,
     GameScreen.run playerX playerO saveGame xFirst
       (GameScreen.start xFirst, store0) es = Some cfg)
  /\ (forall st store,
        GameScreen.run playerX playerO saveGame xFirst
          (GameScreen.start xFirst, store0) es = Some (st, store) ->
        valid_board (GameScreen.board st)
        /\ in_turn xFirst st
        /\ (GameScreen.winner st, GameScreen.winningCombo st)
           = outcome playerX playerO (GameScreen.board st)).
Proof.
  intros HX HO; split.
  - intros Hall; apply run_on_board; auto; apply start_inv.
  - intros st store Hrun.
    apply (@run_inv playerX playerO saveGame xFirst HX HO es
             (GameScreen.start xFirst, store0) (st, store)); auto.
    apply start_inv.
Qed.

Lemma game_state_consistent_witness :
  valid_board (GameScreen.board (fst demo_end))
  /\ in_turn true (fst demo_end)
  /\ GameScreen.winner (fst demo_end) = Some (js "Ann")
  /\ GameScreen.winningCombo (fst demo_end) = Some [0; 1; 2].
Proof.
  destruct (@game_state_consistent (js "Ann") (js "Bo")
              (Part000.saveGame demo_route) true None demo_presses
              eq_refl eq_refl) as (_ & Hcons).
  destruct (Hcons (fst demo_end) (snd demo_end) demo_run) as (Hv & Ht & Hout).
  split; [exact Hv|]; split; [exact Ht|].
  split; [exact (f_equal fst Hout)|exact (f_equal snd Hout)].
Defined.

(** X3.  In a game in progress or finished, a press on one of the nine
    cells changes nothing, stores nothing and shows no alert exactly
    when the game is over or the cell is taken. *)
Theorem press_ignored_iff_over_or_taken (playerX playerO : jsstring)
  (saveGame : Z -> bool -> Storage -> squares -> jsstring
              -> Storage * option Alert)
  (xFirst : bool) (store0 : Storage) (es : list GameScreen.event)
  (st : GameScreen.State) (store : Storage)
  (now : Z) (io_ok : bool) (index : nat) :
  str_truthy playerX = true -> str_truthy playerO = true ->
  GameScreen.run playerX playerO saveGame xFirst
    (GameScreen.start xFirst, store0) es = Some (st, store) ->
  index < 9 ->
  (GameScreen.handlePress playerX playerO saveGame now io_ok st store index
   = Some (st, store, [])
   <-> GameScreen.winner st <> None
       \/ nth_error (GameScreen.board st) index <> Some None).
Proof.
  intros HX HO Hrun Hi.
  assert (Hinv : game_inv playerX playerO xFirst st).
  { apply (@run_inv playerX playerO saveGame xFirst HX HO es
             (GameScreen.start xFirst, store0) (st, store)); auto.
    apply start_inv. }
  split.
  - intros H.
    destruct (@press_places_symbol playerX playerO saveGame xFirst HX HO
                st store now io_ok index st store [] Hinv H)
      as [(_ & _ & _ & Hg)|(pre & post & Eb & _ & Eb' & _)].
    + apply orb_true_iff in Hg; destruct Hg as [Hc|Hw].
      * right; intros E; rewrite E in Hc; discriminate.
      * left; intros E; rewrite E in Hw; discriminate.
    + rewrite Eb in Eb'; apply app_inv_head in Eb'.
      destruct (GameScreen.xIsNext st); discriminate.
  - intros Hor.
    assert (Hg : GameScreen.cell_truthy (nth_error (GameScreen.board st) index)
                 || GameScreen.winner_truthy (GameScreen.winner st) = true).
    { apply orb_true_iff; destruct Hor as [Hw|Hc].
      - right; destruct (GameScreen.winner st) as [w|] eqn:Ew; [|congruence].
        destruct Hinv as (_ & _ & Hout); simpl.
        apply (@outcome_winner_truthy playerX playerO HX HO
                 (GameScreen.board st)); now rewrite <- Hout.
      - left; destruct Hinv as ((Hlen & Hcells) & _).
        destruct (nth_error (GameScreen.board st) index) as [c|] eqn:Ec.
        + rewrite Forall_forall in Hcells.
          destruct (Hcells c (nth_error_In _ _ Ec)) as [-> | [-> | ->]];
            [elim Hc; first [exact Ec|reflexivity]|reflexivity|reflexivity].
        + apply nth_error_None in Ec; lia. }
    unfold GameScreen.handlePress; now rewrite Hg.
Qed.

Lemma press_ignored_iff_over_or_taken_witness :
  GameScreen.handlePress (js "Ann") (js "Bo") (Part000.saveGame demo_route)
    6 true (fst demo_end) (snd demo_end) 8
  = Some (fst demo_end, snd demo_end, []).
Proof.
  apply (@press_ignored_iff_over_or_taken (js "Ann") (js "Bo")
           (Part000.saveGame demo_route) true None demo_presses
           (fst demo_end) (snd demo_end) 6 true 8 eq_refl eq_refl demo_run).
  - repeat constructor.
  - left; discriminate.
Defined.

(** X4.  When a press ends a game with a completed line, the line goes
    through the cell just pressed and holds the symbol just placed: the
    winner announced and stored in the state is the player who moved. *)
Theorem win_goes_to_mover (playerX playerO : jsstring)
  (saveGame : Z -> bool -> Storage -> squares -> jsstring
              -> Storage * option Alert)
  (xFirst : bool) (store0 : Storage) (es : list GameScreen.event)
  (st st' : GameScreen.State) (store store' : Storage) (al : list Alert)
  (now : Z) (io_ok : bool) (index : nat) (s : jsstring) (combo : list nat) :
  str_truthy playerX = true -> str_truthy playerO = true ->
  GameScreen.run playerX playerO saveGame xFirst
    (GameScreen.start xFirst, store0) es = Some (st, store) ->
  GameScreen.winner st = None ->
  GameScreen.handlePress playerX playerO saveGame now io_ok st store index
  = Some (st', store', al) ->
  calculateWinner (GameScreen.board st') = Some (s, combo) ->
  s = (if GameScreen.xIsNext st then js "X" else js "O")
  /\ In index combo
  /\ GameScreen.winner st'
     = Some (if GameScreen.xIsNext st then playerX else playerO)
  /\ GameScreen.winningCombo st' = Some combo
  /\ hd_error al
     = Some (js "Game Over",
             (if GameScreen.xIsNext st then playerX else playerO)
             ++ js " wins").
Proof.
  intros HX HO Hrun Hwn H Hcalc.
  assert (Hinv : game_inv playerX playerO xFirst st).
  { apply (@run_inv playerX playerO saveGame xFirst HX HO es
             (GameScreen.start xFirst, store0) (st, store)); auto.
    apply start_inv. }
  assert (Hw : GameScreen.winner_truthy (GameScreen.winner st) = false)
    by now rewrite Hwn.
  destruct (@game_in_progress playerX playerO xFirst HX HO st Hinv Hw)
    as (_ & _ & Hnone & _).
  pose proof (@handlePress_inv playerX playerO saveGame xFirst HX HO
                st store now io_ok index st' store' al Hinv H) as Hinv'.
  destruct (@press_places_symbol playerX playerO saveGame xFirst HX HO
              st store now io_ok index st' store' al Hinv H)
    as [(-> & _)|(pre & post & Eb & Hlen & Eb' & _ & _ & Hout)];
    [congruence|].
  destruct Hinv as (Hv & _), Hinv' as (Hv' & _).
  destruct (calculateWinner_sound Hv' Hcalc) as (l & Hl & -> & Hc).
  destruct l as [[a b1] c]; cbn [triple].
  assert (Hplaced : nth_error (GameScreen.board st') index
                    = Some (Some (if GameScreen.xIsNext st
                                  then js "X" else js "O")))
    by (rewrite Eb', <- Hlen; apply nth_error_middle).
  assert (Hin : In index [a; b1; c]).
  { destruct (in_dec Nat.eq_dec index [a; b1; c]) as [Hin|Hnin]; auto.
    exfalso;
      apply (@calculateWinner_none (GameScreen.board st) Hv Hnone (a, b1, c) s Hl).
    destruct Hc as (Ha & Hb1 & Hc'); rewrite Eb' in Ha, Hb1, Hc'.
    rewrite Eb; simpl in Hnin; repeat split.
    - rewrite <- Ha; apply nth_error_other;
        unfold squares, cell, jsstring in *; lia.
    - rewrite <- Hb1; apply nth_error_other;
        unfold squares, cell, jsstring in *; lia.
    - rewrite <- Hc'; apply nth_error_other;
        unfold squares, cell, jsstring in *; lia. }
  assert (Hs : s = (if GameScreen.xIsNext st then js "X" else js "O")).
  { destruct Hc as (Ha & Hb1 & Hc').
    destruct Hin as [<-|[<-|[<-|[]]]]; congruence. }
  split; [exact Hs|]; split; [exact Hin|].
  unfold outcome in Hout; rewrite Hcalc in Hout.
  injection Hout as Hwin Hcombo.
  assert (Hname : (if str_eqb s (js "X") then playerX else playerO)
                  = (if GameScreen.xIsNext st then playerX else playerO)).
  { rewrite Hs; now destruct (GameScreen.xIsNext st). }
  rewrite Hname in Hwin; split; [exact Hwin|]; split; [exact Hcombo|].
  revert H; unfold GameScreen.handlePress.
  destruct (GameScreen.cell_truthy _ || GameScreen.winner_truthy _).
  { intros H; injection H as <- _ _.
    rewrite Hnone in Hcalc; discriminate. }
  destruct (GameScreen.array_set _ _ _) as [newBoard|]; [|discriminate].
  destruct (calculateWinner newBoard) as [[s0 combo0]|] eqn:E0; cbv zeta.
  - destruct (saveGame _ _ _ _ _) as [s1 failed].
    intros H; injection H as <- _ <-; simpl in Hcalc.
    rewrite E0 in Hcalc; injection Hcalc as -> _.
    now rewrite Hname.
  - destruct (GameScreen.every_Boolean newBoard);
      [destruct (saveGame _ _ _ _ _) as [s1 failed]|];
      intros H; injection H as <- _ _; simpl in Hcalc; congruence.
Qed.

Definition demo_before_last : GameScreen.State * Storage :=
  Eval vm_compute in
    match Part000.run demo_route (GameScreen.start true, None)
            (firstn 4 demo_presses) with
    | Some cfg => cfg
    | None => (GameScreen.start true, None)
    end.

Lemma win_goes_to_mover_witness :
  GameScreen.winner (fst demo_end) = Some (js "Ann")
  /\ In 2 [0; 1; 2].
Proof.
  destruct (@win_goes_to_mover (js "Ann") (js "Bo")
              (Part000.saveGame demo_route) true None (firstn 4 demo_presses)
              (fst demo_before_last) (fst demo_end)
              (snd demo_before_last) (snd demo_end)
              [(js "Game Over", js "Ann wins")] 5 true 2 (js "X") [0; 1; 2]
              eq_refl eq_refl)
    as (_ & Hin & Hw & _); try (vm_compute; reflexivity).
  split; [exact Hw|exact Hin].
Defined.

Lemma Part000_saveGame_record route now io_ok store b r :
  Part000.saveGame route now io_ok store b r
  = if io_ok
    then (Some (Game.make b r
                  (Players.make (trim (Part000.playerX route))
                     (trim (Part000.playerO route))) now
                :: parse_games store), None)
    else (store, Some (js "Error", js "Failed to save the game.")).
Proof. now destruct io_ok. Qed.

Lemma IndexTsx_saveGame_record route now io_ok store b r :
  IndexTsx.saveGame route now io_ok store b r
  = if io_ok
    then (Some (Game.make b r
                  (Players.make (IndexTsx.playerX route)
                     (IndexTsx.playerO route)) now
                :: parse_games store), None)
    else (store, Some (js "Error", js "Failed to save the game.")).
Proof. now destruct io_ok. Qed.

(** What is known of a record a game screen has stored. *)
Definition stored_game (playerX playerO : jsstring) (names : Players.t)
  (g : Game.t) : Prop :=
  valid_board (Game.board g)
  /\ result_of playerX playerO (Game.board g) = Some (Game.result g)
  /\ Game.players g = names.

Lemma finished_stored playerX playerO names added :
  Forall (finished playerX playerO
            (fun b r now => Game.make b r names now)) added ->
  Forall (stored_game playerX playerO names) added.
Proof.
  apply Forall_impl; intros g (b & r & now & -> & Hv & Hr).
  repeat split; auto; apply Hv.
Qed.

Lemma Part000_stored_games route store0 es st store :
  str_truthy (Part000.playerX route) = true ->
  str_truthy (Part000.playerO route) = true ->
  Part000.run route (GameScreen.start (Part000.xFirst route), store0) es
  = Some (st, store) ->
  exists added,
    parse_games store = added ++ parse_games store0
    /\ Forall (stored_game (Part000.playerX route) (Part000.playerO route)
                 (Players.make (trim (Part000.playerX route))
                    (trim (Part000.playerO route)))) added
    /\ (Forall is_press es -> length added <= 1).
Proof.
  intros HX HO Hrun.
  destruct (@run_store (Part000.playerX route) (Part000.playerO route)
              (Part000.saveGame route) (Part000.xFirst route) HX HO
              (fun b r now =>
                 Game.make b r
                   (Players.make (trim (Part000.playerX route))
                      (trim (Part000.playerO route))) now)
              (js "Error", js "Failed to save the game.")
              (Part000_saveGame_record route) es
              (GameScreen.start (Part000.xFirst route), store0) (st, store)
              (start_inv _ _ _) Hrun) as (added & Hp & Hfin & Hlen).
  exists added; split; [exact Hp|]; split; [|exact Hlen].
  now apply finished_stored.
Qed.

Lemma IndexTsx_stored_games route store0 es st store :
  str_truthy (IndexTsx.playerX route) = true ->
  str_truthy (IndexTsx.playerO route) = true ->
  IndexTsx.run route (GameScreen.start true, store0) es = Some (st, store) ->
  exists added,
    parse_games store = added ++ parse_games store0
    /\ Forall (stored_game (IndexTsx.playerX route) (IndexTsx.playerO route)
                 (Players.make (IndexTsx.playerX route)
                    (IndexTsx.playerO route))) added
    /\ (Forall is_press es -> length added <= 1).
Proof.
  intros HX HO Hrun.
  destruct (@run_store (IndexTsx.playerX route) (IndexTsx.playerO route)
              (IndexTsx.saveGame route) true HX HO
              (fun b r now =>
                 Game.make b r
                   (Players.make (IndexTsx.playerX route)
                      (IndexTsx.playerO route)) now)
              (js "Error", js "Failed to save the game.")
              (IndexTsx_saveGame_record route) es
              (GameScreen.start true, store0) (st, store)
              (start_inv _ _ _) Hrun) as (added & Hp & Hfin & Hlen).
  exists added; split; [exact Hp|]; split; [|exact Hlen].
  now apply finished_stored.
Qed.

(** X5.  Whatever is pressed on either game screen, the stored list only
    grows at its front, and every record added is a finished game: a
    board of nine cells, each empty, X or O, with a completed line and
    the result text naming its owner, or full without a completed line
    and the result Draw.  Without a press of Restart at most one record
    is added. *)
Theorem saved_games_are_finished :
  (forall route store0 es st store,
     str_truthy (Part000.playerX route) = true ->
     str_truthy (Part000.playerO route) = true ->
     Part000.run route (GameScreen.start (Part000.xFirst route), store0) es
     = Some (st, store) ->
     exists added,
       parse_games store = added ++ parse_games store0
       /\ Forall (stored_game (Part000.playerX route) (Part000.playerO route)
                    (Players.make (trim (Part000.playerX route))
                       (trim (Part000.playerO route)))) added
       /\ (Forall is_press es -> length added <= 1))
  /\ (forall route store0 es st store,
        str_truthy (IndexTsx.playerX route) = true ->
        str_truthy (IndexTsx.playerO route) = true ->
        IndexTsx.run route (GameScreen.start true, store0) es
        = Some (st, store) ->
        exists added,
          parse_games store = added ++ parse_games store0
          /\ Forall (stored_game (IndexTsx.playerX route)
                       (IndexTsx.playerO route)
                       (Players.make (IndexTsx.playerX route)
                          (IndexTsx.playerO route))) added
          /\ (Forall is_press es -> length added <= 1)).
Proof.
  split; intros route store0 es st store HX HO Hrun.
  - now apply (@Part000_stored_games route store0 es st store).
  - now apply (@IndexTsx_stored_games route store0 es st store).
Qed.

Lemma saved_games_are_finished_witness :
  exists added,
    parse_games (snd demo_end) = added ++ []
    /\ Forall (stored_game (js "Ann") (js "Bo")
                 (Players.make (js "Ann") (js "Bo"))) added
    /\ length added <= 1.
Proof.
  destruct (proj1 saved_games_are_finished demo_route None demo_presses
              (fst demo_end) (snd demo_end) eq_refl eq_refl demo_run)
    as (added & Hp & Hfin & Hlen).
  exists added; split; [exact Hp|]; split; [exact Hfin|].
  apply Hlen; unfold demo_presses; repeat constructor.
Defined.

Lemma draw_is_no_win (name : jsstring) : js "Draw" <> name ++ js " wins".
Proof.
  intros E; apply (f_equal (@length N)) in E.
  rewrite length_app in E; simpl in E; lia.
Qed.

(** X6.  A record stored by the game screen of the file with the grouped
    history, for players admitted by its home screen, is counted by the
    history under the outcome its board shows: a completed X line adds
    one to the X wins, a board without a completed line one to the
    draws, a completed O line one to the O wins, unless both players
    have the same name, in which case it adds one to the X wins.
    Trimming the names again changes nothing in such a record. *)
Theorem saved_games_tallied_by_outcome (nameX nameO : jsstring)
  (first : option Part000.Symbol) (route : Part000.PlayerRoute)
  (store0 : Storage) (es : list GameScreen.event)
  (st : GameScreen.State) (store : Storage) :
  Part000.startGame nameX nameO first = inr route ->
  Part000.run route (GameScreen.start (Part000.xFirst route), store0) es
  = Some (st, store) ->
  exists added,
    parse_games store = added ++ parse_games store0
    /\ Forall
         (fun g =>
            normalised g = g
            /\ (forall combo c,
                  calculateWinner (Game.board g) = Some (js "X", combo) ->
                  Part000.tally c g
                  = Part000.mkCounters (Part000.xWins c + 1) (Part000.oWins c)
                      (Part000.draws c))
            /\ (forall combo c,
                  calculateWinner (Game.board g) = Some (js "O", combo) ->
                  Part000.tally c g
                  = if str_eqb (Part000.playerX route) (Part000.playerO route)
                    then Part000.mkCounters (Part000.xWins c + 1)
                           (Part000.oWins c) (Part000.draws c)
                    else Part000.mkCounters (Part000.xWins c)
                           (Part000.oWins c + 1) (Part000.draws c))
            /\ (forall c,
                  calculateWinner (Game.board g) = None ->
                  Part000.tally c g
                  = Part000.mkCounters (Part000.xWins c) (Part000.oWins c)
                      (Part000.draws c + 1)))
         added.
Proof.
  intros Hstart Hrun.
  assert (Hnames : Part000.playerX route = trim nameX
                   /\ Part000.playerO route = trim nameO
                   /\ str_truthy (trim nameX) = true
                   /\ str_truthy (trim nameO) = true).
  { unfold Part000.startGame in Hstart.
    destruct (str_truthy (trim nameX)), (str_truthy (trim nameO));
      try discriminate.
    destruct first; [|discriminate].
    injection Hstart as <-; auto. }
  destruct Hnames as (EX & EO & HX & HO).
  rewrite <- EX in HX; rewrite <- EO in HO.
  destruct (@Part000_stored_games route store0 es st store HX HO Hrun)
    as (added & Hp & Hfin & _).
  exists added; split; [exact Hp|].
  revert Hfin; apply Forall_impl; intros g (Hv & Hr & Hpl).
  assert (HtX : trim (Part000.playerX route) = Part000.playerX route)
    by (rewrite EX; apply trim_idempotent).
  assert (HtO : trim (Part000.playerO route) = Part000.playerO route)
    by (rewrite EO; apply trim_idempotent).
  rewrite HtX, HtO in Hpl.
  assert (Hnorm : normalised g = g).
  { unfold normalised, with_players; rewrite Hpl; simpl.
    rewrite HtX, HtO; destruct g; simpl in *; now rewrite Hpl. }
  split; [exact Hnorm|].
  unfold result_of in Hr; unfold Part000.tally; rewrite Hpl; simpl.
  split; [|split].
  - intros combo c Hc; rewrite Hc in Hr.
    change (str_eqb (js "X") (js "X")) with true in Hr.
    injection Hr as <-; now rewrite str_eqb_refl.
  - intros combo c Hc; rewrite Hc in Hr.
    change (str_eqb (js "O") (js "X")) with false in Hr.
    injection Hr as <-.
    destruct (str_eqb (Part000.playerX route) (Part000.playerO route)) eqn:E.
    + apply str_eqb_eq in E; rewrite E; now rewrite str_eqb_refl.
    + apply str_eqb_neq in E.
      replace (str_eqb (Part000.playerO route ++ js " wins")
                 (Part000.playerX route ++ js " wins")) with false.
      * now rewrite str_eqb_refl.
      * symmetry; apply str_eqb_neq; intros E'.
        apply app_inv_tail in E'; congruence.
  - intros c Hc; rewrite Hc in Hr.
    destruct (GameScreen.every_Boolean (Game.board g)); [|discriminate].
    injection Hr as <-.
    replace (str_eqb (js "Draw") (Part000.playerX route ++ js " wins"))
      with false by (symmetry; apply str_eqb_neq, draw_is_no_win).
    replace (str_eqb (js "Draw") (Part000.playerO route ++ js " wins"))
      with false by (symmetry; apply str_eqb_neq, draw_is_no_win).
    reflexivity.
Qed.

Lemma saved_games_tallied_by_outcome_witness :
  exists added,
    parse_games (snd demo_end) = added ++ []
    /\ Forall (fun g => normalised g = g
                        /\ Part000.tally (Part000.mkCounters 0 0 0) g
                           = Part000.mkCounters 1 0 0) added.
Proof.
  destruct (@saved_games_tallied_by_outcome (js " Ann ") (js "Bo")
              (Some Part000.SymX) demo_route None demo_presses
              (fst demo_end) (snd demo_end) eq_refl demo_run)
    as (added & Hp & Hall).
  exists added; split; [exact Hp|].
  assert (E : parse_games (snd demo_end) = added ++ []) by exact Hp.
  rewrite app_nil_r in E; rewrite <- E in Hall |- *.
  inversion Hall as [|g l (Hnorm & HXwin & _) _]; subst.
  constructor; [|constructor]; split; [exact Hnorm|].
  apply (HXwin [0; 1; 2] (Part000.mkCounters 0 0 0)); reflexivity.
Defined.

(** ** The home screen *)

Lemma trimStart_blank s : forallb isWhiteSpace s = true -> trimStart s = [].
Proof.
  induction s as [|c s IH]; simpl; auto.
  destruct (isWhiteSpace c); simpl; [auto|discriminate].
Qed.

(** A string trims to nothing exactly when it is made of white space. *)
Lemma trim_blank_iff s : trim s = [] <-> forallb isWhiteSpace s = true.
Proof.
  split.
  - intros E; destruct (trim_split s) as (pre & suf & Hs & Hpre & Hsuf).
    rewrite E in Hs; simpl in Hs; rewrite Hs, forallb_app, Hpre, Hsuf.
    reflexivity.
  - intros H; unfold trim; now rewrite (trimStart_blank _ H).
Qed.

Lemma truthy_trim_iff s :
  str_truthy (trim s) = true <-> forallb isWhiteSpace s = false.
Proof.
  destruct (forallb isWhiteSpace s) eqn:E.
  - apply trim_blank_iff in E; rewrite E; simpl; split; discriminate.
  - destruct (trim s) eqn:Et; simpl; [|tauto].
    apply trim_blank_iff in Et; congruence.
Qed.

(** X1.  Either home screen starts a game exactly when both names have
    a character that is not white space (and, in the file with the
    grouped history, a first player is chosen); otherwise it shows an
    alert, the one about the names first.  The names handed to the game
    screen are the trimmed ones in the file with the grouped history,
    which trimming again leaves alone, and the names as typed in
    [index.tsx]; neither is ever empty. *)
Theorem startGame_requires_names :
  (forall nameX nameO first,
     match Part000.startGame nameX nameO first with
     | inr route =>
         forallb isWhiteSpace nameX = false
         /\ forallb isWhiteSpace nameO = false
         /\ first = Some (Part000.firstPlayer route)
         /\ Part000.playerX route = trim nameX
         /\ Part000.playerO route = trim nameO
         /\ trim (Part000.playerX route) = Part000.playerX route
         /\ trim (Part000.playerO route) = Part000.playerO route
         /\ str_truthy (Part000.playerX route) = true
         /\ str_truthy (Part000.playerO route) = true
     | inl alert =>
         (alert = (js "Error", js "Enter both names")
          /\ (forallb isWhiteSpace nameX = true
              \/ forallb isWhiteSpace nameO = true))
         \/ (alert = (js "Error", js "Select who goes first")
             /\ forallb isWhiteSpace nameX = false
             /\ forallb isWhiteSpace nameO = false
             /\ first = None)
     end)
  /\ (forall nameX nameO,
        match IndexTsx.startGame nameX nameO with
        | inr route =>
            forallb isWhiteSpace nameX = false
            /\ forallb isWhiteSpace nameO = false
            /\ IndexTsx.playerX route = nameX
            /\ IndexTsx.playerO route = nameO
            /\ str_truthy (IndexTsx.playerX route) = true
            /\ str_truthy (IndexTsx.playerO route) = true
        | inl alert =>
            alert = (js "Error", js "Enter both names")
            /\ (forallb isWhiteSpace nameX = true
                \/ forallb isWhiteSpace nameO = true)
        end).
Proof.
  split.
  - intros nameX nameO first; unfold Part000.startGame.
    destruct (str_truthy (trim nameX)) eqn:EX.
    + destruct (str_truthy (trim nameO)) eqn:EO; cbn [negb orb].
      * pose proof (proj1 (truthy_trim_iff nameX) EX) as HX.
        pose proof (proj1 (truthy_trim_iff nameO) EO) as HO.
        destruct first as [sym|]; [|right; auto].
        cbn [Part000.playerX Part000.playerO Part000.firstPlayer].
        rewrite !trim_idempotent; auto 10.
      * left; split; auto; right.
        destruct (forallb isWhiteSpace nameO) eqn:E; auto.
        apply truthy_trim_iff in E; congruence.
    + cbn [negb orb]; left; split; auto; left.
      destruct (forallb isWhiteSpace nameX) eqn:E; auto.
      apply truthy_trim_iff in E; congruence.
  - intros nameX nameO; unfold IndexTsx.startGame.
    destruct (str_truthy (trim nameX)) eqn:EX.
    + destruct (str_truthy (trim nameO)) eqn:EO; cbn [negb orb].
      * pose proof (proj1 (truthy_trim_iff nameX) EX) as HX.
        pose proof (proj1 (truthy_trim_iff nameO) EO) as HO.
        cbn [IndexTsx.playerX IndexTsx.playerO].
        repeat split; auto.
        -- destruct nameX; [discriminate|reflexivity].
        -- destruct nameO; [discriminate|reflexivity].
      * split; auto; right.
        destruct (forallb isWhiteSpace nameO) eqn:E; auto.
        apply truthy_trim_iff in E; congruence.
    + cbn [negb orb]; split; auto; left.
      destruct (forallb isWhiteSpace nameX) eqn:E; auto.
      apply truthy_trim_iff in E; congruence.
Qed.

(** ** The history screen over time *)

(** A record that has the timestamp, board and result of one of
    [origin]. *)
Definition stems_from (origin : list Game.t) (g' : Game.t) : Prop :=
  exists g,
    In g origin
    /\ Game.timestamp g' = Game.timestamp g
    /\ Game.board g' = Game.board g
    /\ Game.result g' = Game.result g.

(** Both names of the record are as [trim] leaves them. *)
Definition trimmed_names (g : Game.t) : Prop :=
  trim (Players.X (Game.players g)) = Players.X (Game.players g)
  /\ trim (Players.O (Game.players g)) = Players.O (Game.players g).

Definition history_inv (origin shown : list Game.t) (store : Storage) : Prop :=
  parse_games store = shown
  /\ Forall (stems_from origin) shown
  /\ length shown <= length origin
  /\ (Forall trimmed_names origin -> Forall trimmed_names shown).

Lemma stems_from_self origin : Forall (stems_from origin) origin.
Proof.
  apply Forall_forall; intros g Hg; exists g; auto.
Qed.

Lemma history_inv_filter origin shown store (p : Game.t -> bool) :
  history_inv origin shown store ->
  history_inv origin (filter p shown) (Some (filter p shown)).
Proof.
  intros (_ & Hst & Hlen & Htr); split; [reflexivity|]; split; [|split].
  - clear - Hst; induction Hst; simpl; auto.
    destruct (p x); auto.
  - pose proof (filter_length_le p shown); lia.
  - intros Ho; specialize (Htr Ho).
    clear - Htr; induction Htr; simpl; auto.
    destruct (p x); auto.
Qed.

Lemma history_inv_renamed origin shown store oldTitle x o :
  history_inv origin shown store ->
  history_inv origin (renamed shown oldTitle x o)
    (Some (renamed shown oldTitle x o)).
Proof.
  intros (_ & Hst & Hlen & Htr); split; [reflexivity|]; split; [|split].
  - unfold renamed; clear - Hst; induction Hst as [|g l Hg _ IH]; simpl; auto.
    constructor; auto.
    destruct (_ && _); auto.
  - unfold renamed; now rewrite length_map.
  - intros Ho; specialize (Htr Ho).
    unfold renamed; clear - Htr; induction Htr as [|g l Hg _ IH]; simpl; auto.
    constructor; auto.
    destruct (_ && _); auto.
    split; simpl; apply trim_idempotent.
Qed.

Lemma Part000_history_step_inv origin h e :
  history_inv origin (Part000.games h) (Part000.stored h) ->
  exists h',
    Part000.history_step h e = Some h'
    /\ history_inv origin (Part000.games h') (Part000.stored h').
Proof.
  intros Hinv; destruct e as [io|ts io|io|title|text| |oldTitle io];
    cbn [Part000.history_step].
  - destruct io; eexists; (split; [reflexivity|]); simpl; [|exact Hinv].
    destruct Hinv as (<- & H); split; auto.
  - destruct io; eexists; (split; [reflexivity|]); simpl; [|exact Hinv].
    eapply history_inv_filter; eauto.
  - destruct io; eexists; (split; [reflexivity|]); simpl; [|exact Hinv].
    repeat split; simpl; auto; lia.
  - eexists; split; [reflexivity|]; exact Hinv.
  - eexists; split; [reflexivity|]; exact Hinv.
  - eexists; split; [reflexivity|]; exact Hinv.
  - destruct (handleSaveEditTitle_outcome io h oldTitle) as (out & -> & Hcase).
    inversion Hcase as [He|gs He Hgs Hd|gs He Hgs Hd Hp
                        |gs x o He Hgs Hd Hx Ho Hxn Hon];
      subst out; try (eexists; split; [reflexivity|exact Hinv]).
    destruct io; eexists; (split; [reflexivity|]); simpl; [|exact Hinv].
    eapply history_inv_renamed; eauto.
Qed.

Lemma Part000_history_run_inv origin es h :
  history_inv origin (Part000.games h) (Part000.stored h) ->
  exists h',
    Part000.history_run h es = Some h'
    /\ history_inv origin (Part000.games h') (Part000.stored h').
Proof.
  revert h; induction es as [|e es IH]; intros h Hinv; simpl; eauto.
  destruct (@Part000_history_step_inv origin h e Hinv) as (h1 & -> & Hinv1); auto.
Qed.

Lemma IndexTsx_history_run_inv origin es h :
  history_inv origin (IndexTsx.games h) (IndexTsx.stored h) ->
  history_inv origin (IndexTsx.games (IndexTsx.history_run h es))
    (IndexTsx.stored (IndexTsx.history_run h es)).
Proof.
  unfold IndexTsx.history_run; revert h.
  induction es as [|e es IH]; intros h Hinv; simpl; auto.
  apply IH; destruct e as [io|ts io|io]; destruct io; simpl;
    try exact Hinv.
  - destruct Hinv as (<- & H); split; auto.
  - eapply history_inv_filter; eauto.
  - repeat split; simpl; auto; lia.
Qed.

Lemma history_inv_loaded store :
  history_inv (parse_games store) (parse_games store) store.
Proof.
  repeat split; auto; apply stems_from_self.
Qed.

(** X7.  Once the history has been loaded, whatever is done on either
    history screen (deleting, deleting all, renaming, editing, reloading,
    with storage calls that succeed or fail): no handler throws, the list
    shown is the stored list, no record is added, every record shown has
    the timestamp, board and result of a record that was stored at
    loading time, and if the stored names were trimmed then, they still
    are. *)
Theorem history_shows_what_is_stored :
  (forall h es,
     exists h',
       Part000.history_run h (Part000.Focus true :: es) = Some h'
       /\ parse_games (Part000.stored h') = Part000.games h'
       /\ Forall (stems_from (parse_games (Part000.stored h)))
            (Part000.games h')
       /\ length (Part000.games h') <= length (parse_games (Part000.stored h))
       /\ (Forall trimmed_names (parse_games (Part000.stored h)) ->
           Forall trimmed_names (Part000.games h')))
  /\ (forall h es,
        let h' := IndexTsx.history_run h (IndexTsx.Focus true :: es) in
        parse_games (IndexTsx.stored h') = IndexTsx.games h'
        /\ Forall (stems_from (parse_games (IndexTsx.stored h)))
             (IndexTsx.games h')
        /\ length (IndexTsx.games h')
           <= length (parse_games (IndexTsx.stored h))).
Proof.
  split.
  - intros h es; cbn [Part000.history_run Part000.history_step].
    apply (@Part000_history_run_inv (parse_games (Part000.stored h)) es); simpl.
    apply history_inv_loaded.
  - intros h es h'.
    destruct (@IndexTsx_history_run_inv (parse_games (IndexTsx.stored h)) es
                (fst (IndexTsx.loadGames true h))) as (H1 & H2 & H3 & _).
    { simpl; apply history_inv_loaded. }
    auto.
Qed.

(** ** Regrouping after a deletion *)

Lemma filter_commute {A} (p q : A -> bool) (l : list A) :
  filter p (filter q l) = filter q (filter p l).
Proof.
  induction l as [|a l IH]; simpl; auto.
  destruct (p a) eqn:Ep, (q a) eqn:Eq; simpl; rewrite ?Ep, ?Eq, IH; auto.
Qed.

Lemma filter_map_commute {A B} (f : A -> B) (p : B -> bool) (l : list A) :
  filter p (map f l) = map f (filter (fun a => p (f a)) l).
Proof.
  induction l as [|a l IH]; simpl; auto.
  destruct (p (f a)); simpl; now rewrite IH.
Qed.

Lemma members_filter_timestamp k ts games :
  members k (filter (fun g => negb (Z.eqb (Game.timestamp g) ts)) games)
  = filter (fun g => negb (Z.eqb (Game.timestamp g) ts)) (members k games).
Proof.
  unfold members; rewrite filter_map_commute; simpl.
  now rewrite filter_commute.
Qed.

(** X8.  After a record is deleted by its timestamp, the regrouped
    history has a section for exactly those earlier sections that keep a
    record; each such section holds the records of the earlier section
    of the same title without the deleted ones, in the same order; no
    section is empty. *)
Theorem delete_then_regroup (h : Part000.History) (ts : Z) :
  exists gs gs',
    Part000.groupGamesByPlayers (Part000.games h) = Some gs
    /\ Part000.groupGamesByPlayers
         (Part000.games (fst (Part000.handleDeleteGame true h ts)))
       = Some gs'
    /\ (forall s', In s' gs' ->
          Part000.data s' <> []
          /\ exists s,
               In s gs
               /\ Part000.title s = Part000.title s'
               /\ map Part000.numbered (Part000.data s')
                  = filter (fun g => negb (Z.eqb (Game.timestamp g) ts))
                      (map Part000.numbered (Part000.data s)))
    /\ (forall s r,
          In s gs -> In r (Part000.data s) ->
          Game.timestamp (Part000.numbered r) <> ts ->
          exists s', In s' gs' /\ Part000.title s' = Part000.title s).
Proof.
  cbn [Part000.handleDeleteGame fst Part000.games].
  set (kept := filter (fun g => negb (Z.eqb (Game.timestamp g) ts))
                 (Part000.games h)).
  destruct (groupGamesByPlayers_sections (Part000.games h))
    as (gs & Hgs & Hall).
  destruct (groupGamesByPlayers_sections kept) as (gs' & Hgs' & Hall').
  pose proof (Forall2_titles Hall) as Ht.
  pose proof (Forall2_titles Hall') as Ht'.
  exists gs, gs'; split; [exact Hgs|]; split; [exact Hgs'|]; split.
  - intros s' Hs'.
    destruct (@Forall2_section_in _ _ _ s' Hall' Hs')
      as (Hin & _ & Hd & _ & first & rest & E & _).
    split.
    { intros En; rewrite En, E in Hd; discriminate. }
    apply first_seen_In, in_map_iff in Hin.
    destruct Hin as (g & Hk & Hg); apply filter_In in Hg.
    assert (Hin : In (Part000.title s') (map Part000.title gs)).
    { rewrite Ht, <- Hk; apply first_seen_In, in_map; tauto. }
    apply in_map_iff in Hin; destruct Hin as (s & Hts & Hs).
    exists s; split; [exact Hs|]; split; [exact Hts|].
    destruct (@Forall2_section_in _ _ _ s Hall Hs) as (_ & _ & Hds & _).
    rewrite Hd, Hds, Hts; apply members_filter_timestamp.
  - intros s r Hs Hr Hne.
    destruct (@Forall2_section_in _ _ _ s Hall Hs) as (_ & _ & Hds & _).
    assert (Hm : In (Part000.numbered r) (members (Part000.title s)
                                            (Part000.games h)))
      by (rewrite <- Hds; now apply in_map).
    apply in_members in Hm; destruct Hm as (g & Hg & Hk & Hn).
    assert (Hin : In (Part000.title s) (map Part000.title gs')).
    { rewrite Ht', <- Hk; apply first_seen_In, in_map, filter_In.
      split; [exact Hg|].
      apply negb_true_iff, Z.eqb_neq.
      rewrite <- Hn in Hne; exact Hne. }
    apply in_map_iff in Hin; destruct Hin as (s' & Hts & Hs').
    exists s'; auto.
Qed.

Lemma delete_then_regroup_witness :
  exists gs',
    Part000.groupGamesByPlayers
      (Part000.games
         (fst (Part000.handleDeleteGame true
                 (Part000.mkHistory three_games None [] (Some three_games))
                 10))) = Some gs'
    /\ map Part000.title gs' = [js "Ann vs Bo"].
Proof.
  destruct (delete_then_regroup
              (Part000.mkHistory three_games None [] (Some three_games)) 10)
    as (gs & gs' & _ & Hgs' & _).
  exists gs'; split; [exact Hgs'|].
  assert (E : Part000.groupGamesByPlayers
                (Part000.games
                   (fst (Part000.handleDeleteGame true
                           (Part000.mkHistory three_games None []
                              (Some three_games)) 10))) = Some gs')
    by exact Hgs'.
  vm_compute in E; injection E as <-; reflexivity.
Defined.

(** ** Numbering inside a section *)

Lemma uint_codes_inj d d' : uint_codes d = uint_codes d' -> d = d'.
Proof.
  revert d'; induction d; intros [] E; simpl in E;
    try discriminate; try reflexivity;
    injection E as E; f_equal; auto.
Qed.

Lemma Number_toString_inj n m :
  Number_toString n = Number_toString m -> n = m.
Proof.
  unfold Number_toString; intros E.
  now apply DecimalNat.Unsigned.to_uint_inj, uint_codes_inj.
Qed.

(** X11.  In every section the record at position [j] (from 0) carries
    the label Game followed by [j+1] in decimal, and no two records of a
    section carry the same label. *)
Theorem gameNumbers_count_from_one (games : list Game.t) :
  exists gs,
    Part000.groupGamesByPlayers games = Some gs
    /\ forall s, In s gs ->
         (forall j r, nth_error (Part000.data s) j = Some r ->
            Part000.gameNumber r = js "Game " ++ Number_toString (j + 1))
         /\ NoDup (map Part000.gameNumber (Part000.data s)).
Proof.
  destruct (groupGamesByPlayers_sections games) as (gs & Hgs & Hall).
  exists gs; split; [exact Hgs|]; intros s Hs.
  destruct (@Forall2_section_in _ _ _ s Hall Hs) as (_ & _ & _ & Hn & _).
  split; [exact Hn|].
  apply NoDup_nth_error; intros i j Hi E.
  rewrite length_map in Hi.
  destruct (nth_error (Part000.data s) i) as [ri|] eqn:Ei;
    [|apply nth_error_None in Ei; lia].
  rewrite (map_nth_error _ _ _ Ei) in E; symmetry in E.
  destruct (nth_error (Part000.data s) j) as [rj|] eqn:Ej.
  - rewrite (map_nth_error _ _ _ Ej) in E; injection E as E.
    rewrite (Hn _ _ Ei), (Hn _ _ Ej) in E.
    apply app_inv_head, Number_toString_inj in E; lia.
  - assert (Hnone : nth_error (map Part000.gameNumber (Part000.data s)) j
                    = None)
      by (apply nth_error_None; rewrite length_map;
          now apply nth_error_None).
    congruence.
Qed.

Lemma gameNumbers_count_from_one_witness :
  exists gs,
    Part000.groupGamesByPlayers three_games = Some gs
    /\ map (fun s => map Part000.gameNumber (Part000.data s)) gs
       = [[js "Game 1"; js "Game 2"]; [js "Game 1"]].
Proof.
  destruct (gameNumbers_count_from_one three_games) as (gs & Hgs & _).
  exists gs; split; [exact Hgs|].
  assert (E : Part000.groupGamesByPlayers three_games = Some gs) by exact Hgs.
  vm_compute in E; injection E as <-; reflexivity.
Defined.

(** ** Renaming and the tallies *)

Lemma renamed_nth games oldTitle x o i g :
  nth_error games i = Some g ->
  exists g',
    nth_error (renamed games oldTitle x o) i = Some g'
    /\ Game.result g' = Game.result g
    /\ Game.board g' = Game.board g
    /\ Game.timestamp g' = Game.timestamp g.
Proof.
  intros Hg; unfold renamed; rewrite (map_nth_error _ _ _ Hg).
  eexists; split; [reflexivity|].
  destruct (_ && _); auto.
Qed.

(** X9.  A rename rewrites the players of a record but not its result
    text.  So a record that counted as a win of its X player, once its X
    name has been changed, no longer does: the history counts it as a
    draw, or as a win of O when the new O name is the old X name. *)
Theorem rename_turns_wins_into_draws (io_ok : bool)
  (h h' : Part000.History) (oldTitle : jsstring) (i : nat) (g g' : Game.t) :
  Part000.handleSaveEditTitle io_ok h oldTitle = Some (h', None) ->
  nth_error (Part000.games h) i = Some g ->
  nth_error (Part000.games h') i = Some g' ->
  Game.result g = trim (Players.X (Game.players g)) ++ js " wins" ->
  trim (Players.X (Game.players g')) <> trim (Players.X (Game.players g)) ->
  Game.result g' = Game.result g
  /\ (forall c,
        Part000.tally c (normalised g)
        = Part000.mkCounters (Part000.xWins c + 1) (Part000.oWins c)
            (Part000.draws c))
  /\ (forall c,
        Part000.tally c (normalised g')
        = if str_eqb (trim (Players.O (Game.players g')))
               (trim (Players.X (Game.players g)))
          then Part000.mkCounters (Part000.xWins c) (Part000.oWins c + 1)
                 (Part000.draws c)
          else Part000.mkCounters (Part000.xWins c) (Part000.oWins c)
                 (Part000.draws c + 1)).
Proof.
  intros Hdone Hg Hg' Hres Hname.
  destruct (handleSaveEditTitle_outcome io_ok h oldTitle)
    as (out & Hout & Hcase).
  rewrite Hdone in Hout; injection Hout as <-.
  assert (Hr : Game.result g' = Game.result g).
  { destruct io_ok;
      inversion Hcase as [| | |gs x o He Hgs Hd Hx Ho Hxn Hon Hh'].
    subst h'; cbn [Part000.games] in Hg'.
    destruct (@renamed_nth (Part000.games h) oldTitle x o i g Hg)
      as (g1 & Hg1 & Hr1 & _).
    rewrite Hg' in Hg1; injection Hg1 as <-; exact Hr1. }
  split; [exact Hr|]; split; intros c; unfold Part000.tally, normalised;
    cbn [with_players Game.result Game.players Players.X Players.O].
  - now rewrite Hres, str_eqb_refl.
  - rewrite Hr, Hres.
    replace (str_eqb (trim (Players.X (Game.players g)) ++ js " wins")
               (trim (Players.X (Game.players g')) ++ js " wins"))
      with false.
    + rewrite (str_eqb_sym (trim (Players.O (Game.players g')))).
      destruct (str_eqb (trim (Players.X (Game.players g)))
                  (trim (Players.O (Game.players g')))) eqn:E.
      * apply str_eqb_eq in E; rewrite E; now rewrite str_eqb_refl.
      * replace (str_eqb (trim (Players.X (Game.players g)) ++ js " wins")
                   (trim (Players.O (Game.players g')) ++ js " wins"))
          with false; auto.
        symmetry; apply str_eqb_neq; intros E'.
        apply app_inv_tail in E'; apply str_eqb_neq in E; congruence.
    + symmetry; apply str_eqb_neq; intros E'.
      apply app_inv_tail in E'; congruence.
Qed.

Lemma rename_turns_wins_into_draws_witness :
  Part000.tally (Part000.mkCounters 0 0 0)
    (normalised (Game.make [] (js "Ann wins")
                   (Players.make (js "Ann") (js "Bo")) 30))
  = Part000.mkCounters 1 0 0
  /\ Part000.tally (Part000.mkCounters 0 0 0)
       (normalised (Game.make [] (js "Ann wins")
                      (Players.make (js "Al") (js "Bea")) 30))
     = Part000.mkCounters 0 0 1.
Proof.
  destruct (@rename_turns_wins_into_draws true rename_before rename_after
              (js "Ann vs Bo") 0
              (Game.make [] (js "Ann wins")
                 (Players.make (js "Ann") (js "Bo")) 30)
              (Game.make [] (js "Ann wins")
                 (Players.make (js "Al") (js "Bea")) 30))
    as (_ & Hbefore & Hafter);
    try (vm_compute; reflexivity).
  - vm_compute; discriminate.
  - split; [apply Hbefore|apply Hafter].
Defined.





(** ** Titles and their two names *)

Lemma startsWith_app p s : startsWith p (p ++ s) = true.
Proof.
  induction p as [|c p IH]; simpl; [now destruct s|].
  now rewrite N.eqb_refl.
Qed.

Lemma split_go_skip sep cur p s :
  split_go sep (length p) cur (p ++ s) = split_go sep 0 cur s.
Proof. induction p as [|c p IH]; simpl; auto. Qed.

Lemma split_go_no_match sep cur s :
  (forall i, i < length s -> startsWith sep (skipn i s) = false) ->
  split_go sep 0 cur s = [rev cur ++ s].
Proof.
  revert cur; induction s as [|c s IH]; intros cur H; simpl.
  - now rewrite app_nil_r.
  - assert (H0 : startsWith sep (c :: s) = false)
      by (apply (H 0); simpl; lia).
    rewrite H0, IH; [simpl; now rewrite <- app_assoc|].
    intros i Hi; apply (H (S i)); simpl; lia.
Qed.

Lemma split_go_first sep cur a b :
  sep <> [] ->
  (forall i, i < length a -> startsWith sep (skipn i (a ++ sep ++ b)) = false) ->
  split_go sep 0 cur (a ++ sep ++ b) = (rev cur ++ a) :: split_go sep 0 [] b.
Proof.
  intros Hsep; revert cur; induction a as [|c a IH]; intros cur H.
  - destruct sep as [|c0 sep']; [congruence|].
    rewrite app_nil_r; cbn [app split_go].
    change (c0 :: sep' ++ b) with ((c0 :: sep') ++ b).
    rewrite startsWith_app; f_equal.
    cbn [length]; rewrite Nat.sub_succ, Nat.sub_0_r.
    apply split_go_skip.
  - cbn [app split_go].
    assert (H0 : startsWith sep (c :: a ++ sep ++ b) = false)
      by (apply (H 0); simpl; lia).
    rewrite H0, IH; [simpl; now rewrite <- app_assoc|].
    intros i Hi; apply (H (S i)); simpl; lia.
Qed.

Lemma startsWith_needs_head p c s :
  startsWith (c :: p) s = true -> exists s', s = c :: s'.
Proof.
  destruct s as [|d s']; simpl; [discriminate|].
  intros H; apply andb_true_iff in H; destruct H as [H _].
  apply N.eqb_eq in H; subst; eauto.
Qed.

Lemma no_space_no_match (s t : jsstring) i :
  ~ In 32%N s -> i < length s ->
  startsWith (js " vs ") (skipn i (s ++ t)) = false.
Proof.
  intros Hs Hi.
  destruct (startsWith (js " vs ") (skipn i (s ++ t))) eqn:E; auto.
  apply (startsWith_needs_head (js "vs ") 32%N) in E.
  destruct E as (s' & E); elim Hs.
  rewrite skipn_app in E.
  destruct (skipn i s) as [|c r] eqn:Es.
  - apply (f_equal (@length N)) in Es; rewrite length_skipn in Es.
    simpl in Es; lia.
  - simpl in E; injection E as -> _.
    rewrite <- (firstn_skipn i s), Es; apply in_or_app; right; now left.
Qed.

(** A key built from two names without a space splits back into
    them. *)
Lemma split_key_no_space (x o : jsstring) :
  ~ In 32%N x -> ~ In 32%N o ->
  split (js " vs ") (x ++ js " vs " ++ o) = [x; o].
Proof.
  intros HX HO; unfold split.
  rewrite split_go_first;
    [|discriminate|intros i Hi; now apply no_space_no_match].
  rewrite split_go_no_match; [reflexivity|].
  intros i Hi; rewrite <- (app_nil_r o); now apply no_space_no_match.
Qed.

(** No trimmed name of the record contains a space. *)
Definition spaceless_names (g : Game.t) : Prop :=
  ~ In 32%N (trim (Players.X (Game.players g)))
  /\ ~ In 32%N (trim (Players.O (Game.players g))).

(** For such records the test of the rename is the test of the key. *)
Lemma rename_test_is_key_test (g g0 : Game.t) :
  spaceless_names g -> spaceless_names g0 ->
  Part000.eq_part (trim (Players.X (Game.players g)))
    (nth_error (split (js " vs ") (pairing_key g0)) 0)
  && Part000.eq_part (trim (Players.O (Game.players g)))
       (nth_error (split (js " vs ") (pairing_key g0)) 1)
  = str_eqb (pairing_key g) (pairing_key g0).
Proof.
  intros [HX HO] [HX0 HO0].
  pose proof (@split_key_no_space _ _ HX HO) as Hg.
  pose proof (@split_key_no_space _ _ HX0 HO0) as Hg0.
  fold (pairing_key g) in Hg; fold (pairing_key g0) in Hg0.
  rewrite Hg0; cbn [nth_error Part000.eq_part].
  destruct (str_eqb (pairing_key g) (pairing_key g0)) eqn:E.
  - apply str_eqb_eq in E; rewrite E, Hg0 in Hg.
    injection Hg as <- <-; now rewrite !str_eqb_refl.
  - apply str_eqb_neq in E.
    destruct (str_eqb (trim (Players.X (Game.players g)))
                (trim (Players.X (Game.players g0)))) eqn:EX; [|reflexivity].
    destruct (str_eqb (trim (Players.O (Game.players g)))
                (trim (Players.O (Game.players g0)))) eqn:EO; [|reflexivity].
    apply str_eqb_eq in EX, EO; elim E; unfold pairing_key; congruence.
Qed.

(** Where no trimmed name of the history contains a space and the title
    saved is that of the section of one of its records, a rename that
    ends without an alert rewrites exactly the records of that section,
    those whose key is the title, and returns every other record as it
    was. *)
Lemma handleSaveEditTitle_rewrites_section (io_ok : bool)
  (h h' : Part000.History) (g0 : Game.t) :
  Forall spaceless_names (Part000.games h) ->
  In g0 (Part000.games h) ->
  Part000.handleSaveEditTitle io_ok h (pairing_key g0) = Some (h', None) ->
  exists xNameNew oNameNew,
    nth_error (split (js " vs ") (trim (Part000.editedTitleText h))) 0
    = Some xNameNew
    /\ nth_error (split (js " vs ") (trim (Part000.editedTitleText h))) 1
       = Some oNameNew
    /\ Part000.games h'
       = map (fun g =>
                if str_eqb (pairing_key g) (pairing_key g0)
                then with_players g (trim xNameNew) (trim oNameNew)
                else g) (Part000.games h).
Proof.
  intros Hall Hin Hdone.
  destruct (handleSaveEditTitle_outcome io_ok h (pairing_key g0))
    as (out & Hout & Hcase).
  rewrite Hdone in Hout; injection Hout as <-.
  destruct io_ok;
    inversion Hcase as [| | |gs x o He Hgs Hd Hx Ho Hxn Hon Hh'].
  exists x, o; cbn [Part000.games].
  split; [assumption|]; split; [assumption|].
  unfold renamed; apply map_ext_in; intros g Hg.
  rewrite Forall_forall in Hall.
  rewrite rename_test_is_key_test; auto.
Qed.

Lemma handleSaveEditTitle_rewrites_section_example :
  exists h',
    Part000.handleSaveEditTitle true rename_before (js "Ann vs Bo")
    = Some (h', None)
    /\ map Game.players (Part000.games h')
       = [ Players.make (js "Al") (js "Bea");
           Players.make (js "Al") (js "Bea");
           Players.make (js "Bo") (js "Ann") ].
Proof.
  assert (Hrun : Part000.handleSaveEditTitle true rename_before (js "Ann vs Bo")
                 = Some (rename_after, None)) by (vm_compute; reflexivity).
  exists rename_after; split; [exact Hrun|].
  assert (Hall : Forall spaceless_names (Part000.games rename_before)).
  { repeat constructor; simpl; intros H;
      repeat destruct H as [H|H]; try discriminate; auto. }
  destruct (@handleSaveEditTitle_rewrites_section true rename_before rename_after
              (Game.make [] (js "Ann wins")
                 (Players.make (js "Ann") (js "Bo")) 30)
              Hall (or_introl eq_refl) Hrun)
    as (x & o & Hx & Ho & ->).
  vm_compute in Hx, Ho; injection Hx as <-; injection Ho as <-.
  reflexivity.
Qed.

(** X12.  A title built from two names as [X vs O] splits at [" vs "]
    back into exactly these two names when the separator occurs at no
    position inside the X name (read within the whole title) and nowhere
    in the O name; names without a space always meet both conditions. *)
Theorem title_splits_back_into_names (nameX nameO : jsstring) :
  ((forall i, i < length nameX ->
      startsWith (js " vs ") (skipn i (nameX ++ js " vs " ++ nameO)) = false) ->
   (forall i, i < length nameO ->
      startsWith (js " vs ") (skipn i nameO) = false) ->
   split (js " vs ") (nameX ++ js " vs " ++ nameO) = [nameX; nameO])
  /\ (~ In 32%N nameX -> ~ In 32%N nameO ->
      split (js " vs ") (nameX ++ js " vs " ++ nameO) = [nameX; nameO]).
Proof.
  assert (Hgen : (forall i, i < length nameX ->
                    startsWith (js " vs ")
                      (skipn i (nameX ++ js " vs " ++ nameO)) = false) ->
                 (forall i, i < length nameO ->
                    startsWith (js " vs ") (skipn i nameO) = false) ->
                 split (js " vs ") (nameX ++ js " vs " ++ nameO)
                 = [nameX; nameO]).
  { intros HX HO; unfold split.
    rewrite split_go_first; [|discriminate|exact HX].
    now rewrite split_go_no_match. }
  split; [exact Hgen|].
  intros HX HO; apply Hgen; intros i Hi.
  - now apply no_space_no_match.
  - rewrite <- (app_nil_r nameO); now apply no_space_no_match.
Qed.

Lemma title_splits_back_into_names_witness :
  split (js " vs ") (js "Ann Lee" ++ js " vs " ++ js "Bo")
  = [js "Ann Lee"; js "Bo"]
  /\ split (js " vs ") (js "Ann" ++ js " vs " ++ js "Bo") = [js "Ann"; js "Bo"].
Proof.
  split.
  - apply (proj1 (title_splits_back_into_names (js "Ann Lee") (js "Bo"))).
    + intros i Hi.
      do 7 (destruct i as [|i]; [reflexivity|]); simpl in Hi; lia.
    + intros i Hi.
      do 2 (destruct i as [|i]; [reflexivity|]); simpl in Hi; lia.
  - apply (proj2 (title_splits_back_into_names (js "Ann") (js "Bo")));
      simpl; intros H; repeat destruct H as [H|H]; try discriminate; auto.
Defined.

(** X13.  A win of X stored by the game screen of [index.tsx] under a
    name typed with white space around it is counted as a draw by the
    grouped history, which compares the result text with the trimmed
    name (unless the trimmed O name happens to be that typed X name). *)
Theorem padded_name_win_counted_as_draw (route : IndexTsx.PlayerRoute)
  (store0 : Storage) (es : list GameScreen.event)
  (st : GameScreen.State) (store : Storage) :
  str_truthy (IndexTsx.playerX route) = true ->
  str_truthy (IndexTsx.playerO route) = true ->
  trim (IndexTsx.playerX route) <> IndexTsx.playerX route ->
  trim (IndexTsx.playerO route) <> IndexTsx.playerX route ->
  IndexTsx.run route (GameScreen.start true, store0) es = Some (st, store) ->
  exists added,
    parse_games store = added ++ parse_games store0
    /\ Forall
         (fun g =>
            forall combo c,
              calculateWinner (Game.board g) = Some (js "X", combo) ->
              Part000.tally c (normalised g)
              = Part000.mkCounters (Part000.xWins c) (Part000.oWins c)
                  (Part000.draws c + 1))
         added.
Proof.
  intros HX HO HtX HtO Hrun.
  destruct (@IndexTsx_stored_games route store0 es st store HX HO Hrun)
    as (added & Hp & Hfin & _).
  exists added; split; [exact Hp|].
  revert Hfin; apply Forall_impl; intros g (_ & Hr & Hpl) combo c Hc.
  unfold result_of in Hr; rewrite Hc in Hr.
  change (str_eqb (js "X") (js "X")) with true in Hr; injection Hr as Hr.
  unfold Part000.tally, normalised;
    cbn [with_players Game.result Game.players Players.X Players.O].
  rewrite <- Hr, Hpl; cbn [Players.X Players.O].
  replace (str_eqb (IndexTsx.playerX route ++ js " wins")
             (trim (IndexTsx.playerX route) ++ js " wins")) with false.
  - replace (str_eqb (IndexTsx.playerX route ++ js " wins")
               (trim (IndexTsx.playerO route) ++ js " wins")) with false;
      auto.
    symmetry; apply str_eqb_neq; intros E.
    apply app_inv_tail in E; congruence.
  - symmetry; apply str_eqb_neq; intros E.
    apply app_inv_tail in E; congruence.
Qed.

Definition padded_route : IndexTsx.PlayerRoute :=
  IndexTsx.mkRoute (js " Ann") (js "Bo").

Definition padded_end : GameScreen.State * Storage :=
  Eval vm_compute in
    match IndexTsx.run padded_route (GameScreen.start true, None)
            demo_presses with
    | Some cfg => cfg
    | None => (GameScreen.start true, None)
    end.

Lemma padded_name_win_counted_as_draw_witness :
  exists added,
    parse_games (snd padded_end) = added ++ []
    /\ Forall
         (fun g =>
            forall combo c,
              calculateWinner (Game.board g) = Some (js "X", combo) ->
              Part000.tally c (normalised g)
              = Part000.mkCounters (Part000.xWins c) (Part000.oWins c)
                  (Part000.draws c + 1))
         added.
Proof.
  apply (@padded_name_win_counted_as_draw padded_route None demo_presses
           (fst padded_end) (snd padded_end)); try reflexivity.
  - vm_compute; discriminate.
  - vm_compute; discriminate.
Defined.
